(** * Prefect task graphs and the Dask executor: a shallow embedding

    The development follows [src/prefect/core/flow.py] (class [Flow]) and
    [src/src/prefect/engine/executors/dask.py] (class [DaskExecutor]).

    Python objects are embedded as follows.
    - A [dict] keyed by task name is a [gmap string Task.t]; a [set] is a
      [gset].  Wherever the source iterates over a set the order is
      hash-dependent, so every such iteration goes through [iter], an
      arbitrary but fixed enumeration (class [SetOrder]).
    - Methods of [Flow] read and assign [self.tasks] and [self.edges]; they are
      functions in a state-and-exception monad over the [Flow] record, so the
      state a call leaves behind is visible also when the call raises.
    - [while] loops are bounded by a number of rounds computed from the sizes
      of the sets involved; outcome [Unfinished] stands for a loop that would
      need more rounds, and is shown never to occur. *)

From stdpp Require Import base option list sets gmap strings relations.

Open Scope string_scope.
Open Scope list_scope.
Open Scope nat_scope.

(** ** Exceptions and outcomes *)

(** The texts of the exceptions raised in the two source files. *)
Inductive message :=
  | FlowsMustHaveAName        (* 'Flows must have a name.' *)
  | TaskNotFound              (* 'Task {} was not found in the Flow' *)
  | ExpectedATask             (* 'Expected a Task; received {}' *)
  | SlugAlreadyExists         (* 'Task "{}" could not be added because a task with the slug "{}" already exists in this Flow.' *)
  | EdgeKeyAlreadyExists      (* 'An edge to task {} with key "{}" already exists!' *)
  | FlowsMustBeAcyclic        (* 'Flows must be acyclic!' *)
  | ExecutorMustBeStarted     (* 'Executor must be started' *)
  | TupleArity                (* 'tuple expected at most 1 argument, got 6' *)
  | NotIterable               (* 'object is not iterable' *)
  | NoSuchAttribute.          (* 'object has no attribute ...' *)

Inductive exn :=
  | ValueError (m : message)
  | TypeError (m : message)
  | AttributeError (m : message).

(** The names the specification gives to the failures of the graph API. *)
Definition NotFoundError : exn := ValueError TaskNotFound.
Definition DuplicateSlugError : exn := ValueError SlugAlreadyExists.
Definition DuplicateKeyError : exn := ValueError EdgeKeyAlreadyExists.
Definition CycleError : exn := ValueError FlowsMustBeAcyclic.

Inductive outcome (A : Type) :=
  | Return (a : A)
  | Raise (e : exn)
  | Unfinished.
Arguments Return {A} a.
Arguments Raise {A} e.
Arguments Unfinished {A}.

(** ** Graph entities *)

Module Task.
(** [ParameterTask] stands for [Parameter], the subclass of [Task] that carries [required] and
    [default]; [id] is the identity of the Python object, so that two task
    objects built from the same arguments are still different tasks. *)
Inductive kind :=
  | Plain
  | ParameterTask (required : bool) (default : option Z).

Record t := mk { id : nat; name : string; slug : string; kind_of : kind }.

Definition is_parameter (x : t) : bool :=
  match kind_of x with ParameterTask _ _ => true | Plain => false end.
Definition required (x : t) : bool :=
  match kind_of x with ParameterTask r _ => r | Plain => false end.
Definition default (x : t) : option Z :=
  match kind_of x with ParameterTask _ d => d | Plain => None end.
End Task.

Module Edge.
Record t := mk { upstream_task : string; downstream_task : string; key : option string }.
End Edge.

#[global] Instance kind_eq_dec : EqDecision Task.kind.
Proof. solve_decision. Defined.
#[global] Instance task_eq_dec : EqDecision Task.t.
Proof. solve_decision. Defined.
#[global] Instance edge_eq_dec : EqDecision Edge.t.
Proof. solve_decision. Defined.

Definition kind_to_sum (k : Task.kind) : unit + bool * option Z :=
  match k with Task.Plain => inl () | Task.ParameterTask r d => inr (r, d) end.
Definition kind_of_sum (s : unit + bool * option Z) : Task.kind :=
  match s with inl _ => Task.Plain | inr (r, d) => Task.ParameterTask r d end.
Definition task_to_tuple (x : Task.t) : nat * string * string * (unit + bool * option Z) :=
  (Task.id x, Task.name x, Task.slug x, kind_to_sum (Task.kind_of x)).
Definition task_of_tuple (p : nat * string * string * (unit + bool * option Z)) : Task.t :=
  let '(i, n, s, k) := p in Task.mk i n s (kind_of_sum k).
Definition edge_to_tuple (e : Edge.t) : string * string * option string :=
  (Edge.upstream_task e, Edge.downstream_task e, Edge.key e).
Definition edge_of_tuple (p : string * string * option string) : Edge.t :=
  let '(u, d, k) := p in Edge.mk u d k.

#[global] Program Instance task_countable : Countable Task.t :=
  inj_countable' task_to_tuple task_of_tuple _.
Next Obligation. by intros [? ? ? []]. Qed.
#[global] Program Instance edge_countable : Countable Edge.t :=
  inj_countable' edge_to_tuple edge_of_tuple _.
Next Obligation. by intros []. Qed.

(** ** Iteration order of Python sets *)

Class SetOrder := {
  iter : ∀ {A} `{Countable A}, gset A → list A;
  iter_perm : ∀ {A} `{Countable A} (X : gset A), iter X ≡ₚ elements X
}.

(** One enumeration, used to run the model on concrete graphs. *)
Definition elements_order : SetOrder :=
  {| iter := λ A _ _, elements; iter_perm := λ A _ _ X, reflexivity (elements X) |}.


(** ** Flow *)

Module Flow.

Record t := mk {
  name : string;
  version : option string;
  project : string;
  description : option string;
  schedule : string;
  concurrent_runs : option nat;
  cluster : option string;
  tasks : gmap string Task.t;
  edges : gset Edge.t
}.

Definition set_tasks (d : gmap string Task.t) (self : t) : t :=
  mk (name self) (version self) (project self) (description self)
     (schedule self) (concurrent_runs self) (cluster self) d (edges self).
Definition set_edges (s : gset Edge.t) (self : t) : t :=
  mk (name self) (version self) (project self) (description self)
     (schedule self) (concurrent_runs self) (cluster self) (tasks self) s.

(** Collaborators that are not part of the source files: the slug function
    of the [slugify] package; the serialized form of a task
    ([Task.serialize], [dict(d, sort_order=i)] on its result, and
    [Task.safe_deserialize]); [Edge.serialize], whose result has the entries
    ['upstream_task'], ['downstream_task'] and ['key'] that
    [safe_deserialize] reads; the object serializer behind the
    ['serialized'] blob; and the schedule (de)serializers.  They are taken
    as parameters. *)
Class Collaborators := {
  slugify : string → string;
  STask : Type;
  Task_serialize : Task.t → STask;
  with_sort_order : STask → nat → STask;
  Task_safe_deserialize : STask → Task.t;
  Edge_serialize : Edge.t → Edge.t;
  utilities_serialize : t → string;
  schedule_serialize : string → string;
  schedules_deserialize : string → string
}.

(** The persisted representation that [serialize] returns. *)
Record serialized `{Collaborators} := mk_serialized {
  s_project : string;
  s_name : string;
  s_slug : string;
  s_version : option string;
  s_serialized : string;
  s_tasks : list STask;
  s_edges : list Edge.t;
  s_parameters : gmap string (bool * option Z);
  s_description : option string;
  s_schedule : string;
  s_concurrent_runs : option nat;
  s_executor_args : option string
}.

(** The persisted representation with another ['serialized'] blob. *)
Definition set_serialized `{Collaborators} (blob : string) (s : serialized)
    : serialized :=
  mk_serialized _ (s_project s) (s_name s) (s_slug s) (s_version s) blob
    (s_tasks s) (s_edges s) (s_parameters s) (s_description s) (s_schedule s)
    (s_concurrent_runs s) (s_executor_args s).

(** The Python values that [_comps] handles. *)
Inductive pyobj :=
  | PyType (n : string)
  | PyStr (s : string)
  | PyNone
  | PyDict (d : gmap string Task.t)
  | PySet (s : gset Edge.t)
  | PyEdge (e : Edge.t).

#[global] Instance pyobj_eq_dec : EqDecision pyobj.
Proof. solve_decision. Defined.

(** *** The monad of methods: the object [self] is the state *)

Definition M (A : Type) : Type := t → t * outcome A.

Definition ret {A} (a : A) : M A := λ self, (self, Return a).
Definition raise {A} (e : exn) : M A := λ self, (self, Raise e).
Definition unfinished {A} : M A := λ self, (self, Unfinished).
Definition bind {A B} (m : M A) (k : A → M B) : M B :=
  λ self,
    match m self with
    | (self', Return a) => k a self'
    | (self', Raise e) => (self', Raise e)
    | (self', Unfinished) => (self', Unfinished)
    end.
Definition get : M t := λ self, (self, Return self).
Definition put (new : t) : M unit := λ _, (new, Return ()).

#[global] Instance M_ret : MRet M := @ret.
#[global] Instance M_bind : MBind M := λ A B k m, bind m k.

(** [for x in l: body], threading the local variables [s] of the loop *)
Fixpoint for_each {A S} (l : list A) (body : S → A → M S) (s : S) : M S :=
  match l with
  | [] => ret s
  | x :: l' => s' ← body s x ; for_each l' body s'
  end.

(** [[f(x) for x in l]] *)
Fixpoint comprehension {A B} (f : A → M B) (l : list A) : M (list B) :=
  match l with
  | [] => ret []
  | x :: l' => y ← f x ; ys ← comprehension f l' ; ret (y :: ys)
  end.

(** Calling a method on another object [obj]: [self] is untouched, and the
    caller receives the object as the call left it. *)
Definition on_object {A} (obj : t) (m : M A) : M (t * A) :=
  λ self,
    match m obj with
    | (obj', Return a) => (self, Return (obj', a))
    | (_, Raise e) => (self, Raise e)
    | (_, Unfinished) => (self, Unfinished)
    end.

(** *** Construction *)

(** [Flow.__init__]; the defaults of the source are the caller's business. *)
Definition init (name : string) (version : option string) (project : string)
    (schedule : string) (concurrent_runs : option nat) (cluster : option string)
    (description : option string) : outcome t :=
  if decide (name = "") then Raise (ValueError FlowsMustHaveAName)
  else Return (mk name version project description schedule concurrent_runs
                  cluster ∅ ∅).

(** [self.tasks.values()] *)
Definition values (self : t) : list Task.t := (map_to_list (tasks self)).*2.

(** [slug] (a property) *)
Definition slug `{Collaborators} : M string :=
  self ← get ;
  match version self with
  | None | Some "" => ret (slugify (name self))
  | Some v => ret (slugify (name self +:+ ":" +:+ v))
  end.

(** A task argument is a task object or a bare name ([isinstance(task, str)]). *)
Definition name_of (task : string + Task.t) : string :=
  match task with inl s => s | inr x => Task.name x end.

Section methods.
Context `{SetOrder}.

Definition get_task (name : string) : M Task.t :=
  self ← get ;
  match tasks self !! name with
  | Some x => ret x
  | None => raise (ValueError TaskNotFound)
  end.

(** The [isinstance(task, Task)] test always succeeds on [Task.t]. *)
Definition add_task (task : Task.t) : M unit :=
  self ← get ;
  if decide (Task.slug task ∈ Task.slug <$> values self)
  then raise (ValueError SlugAlreadyExists)
  else put (set_tasks (<[Task.name task := task]> (tasks self)) self).

Definition upstream_tasks (task : string + Task.t) : M (gset Task.t) :=
  let name := name_of task in
  self ← get ;
  l ← comprehension (λ e, get_task (Edge.upstream_task e))
         (filter (λ e, Edge.downstream_task e = name) (iter (edges self))) ;
  ret (list_to_set l).

Definition downstream_tasks (task : string + Task.t) : M (gset Task.t) :=
  let name := name_of task in
  self ← get ;
  l ← comprehension (λ e, get_task (Edge.downstream_task e))
         (filter (λ e, Edge.upstream_task e = name) (iter (edges self))) ;
  ret (list_to_set l).

(** One round of [while seen != tasks]: every task not yet seen adds its
    downstream tasks and becomes seen. *)
Definition expand (st : gset Task.t * gset Task.t) (x : Task.t)
    : M (gset Task.t * gset Task.t) :=
  ds ← downstream_tasks (inr x) ;
  ret (st.1 ∪ ds, st.2 ∪ {[x]}).

Fixpoint closure_loop (rounds : nat) (tasks seen : gset Task.t)
    : M (gset Task.t) :=
  match rounds with
  | 0 => unfinished
  | S n =>
      if decide (seen = tasks) then ret tasks
      else
        st ← for_each (iter (tasks ∖ seen)) expand (tasks, seen) ;
        closure_loop n st.1 st.2
  end.

(** The body of [for task in list(tasks)]: the inner [for ... else] takes
    the [else] branch exactly when no upstream task is still in [tasks]. *)
Definition place (st : gset Task.t * list Task.t * bool) (task : Task.t)
    : M (gset Task.t * list Task.t * bool) :=
  let '(tasks, sorted_tasks, acyclic) := st in
  ups ← upstream_tasks (inr task) ;
  if existsb (λ u, bool_decide (u ∈ tasks)) (iter ups)
  then ret st
  else ret (tasks ∖ {[task]}, sorted_tasks ++ [task], true).

Fixpoint sort_loop (rounds : nat) (tasks : gset Task.t)
    (sorted_tasks : list Task.t) : M (list Task.t) :=
  match rounds with
  | 0 => unfinished
  | S n =>
      if decide (tasks = ∅) then ret sorted_tasks
      else
        st ← for_each (iter tasks) place (tasks, sorted_tasks, false) ;
        let '(tasks', sorted_tasks', acyclic) :=
          (st : gset Task.t * list Task.t * bool) in
        if (acyclic : bool) then sort_loop n tasks' sorted_tasks'
        else raise (ValueError FlowsMustBeAcyclic)
  end.

Definition sorted_tasks (root_tasks : option (list (string + Task.t)))
    : M (list Task.t) :=
  tasks ←
    (match root_tasks with
    | Some roots =>
        l ← comprehension
               (λ r, match r with inl s => get_task s | inr x => ret x end)
               roots ;
        self ← get ;
        let tasks : gset Task.t := list_to_set l in
        closure_loop (S (size (tasks ∪ list_to_set (values self)))) tasks ∅
    | None =>
        self ← get ;
        ret (list_to_set (values self))
    end) ;
  sort_loop (S (size tasks)) tasks [].

Definition add_edge (upstream_task downstream_task : Task.t)
    (key : option string) : M unit :=
  let edge :=
    Edge.mk (Task.name upstream_task) (Task.name downstream_task) key in
  self ← get ;
  (if decide (upstream_task ∈ values self) then ret ()
   else add_task upstream_task) ;;
  self ← get ;
  (if decide (downstream_task ∈ values self) then ret ()
   else add_task downstream_task) ;;
  self ← get ;
  (match Edge.key edge with
   | Some _ =>
       let existing_edges :=
         filter (λ e, Edge.downstream_task e = Task.name downstream_task
                      ∧ Edge.key e = Edge.key edge)
                (iter (edges self)) in
       match existing_edges with
       | [] => ret ()
       | _ :: _ => raise (ValueError EdgeKeyAlreadyExists)
       end
   | None => ret ()
   end) ;;
  self ← get ;
  put (set_edges (edges self ∪ {[edge]}) self) ;;
  sorted_tasks None ;;
  ret ().

(** [upstream_results] is a mapping from key to task; [as_task] is the
    identity on tasks. *)
Definition set_dependencies (task : Task.t)
    (upstream_tasks downstream_tasks : option (list Task.t))
    (upstream_results : option (list (string * Task.t))) : M unit :=
  self ← get ;
  (if decide (task ∈ values self) then ret () else add_task task) ;;
  for_each (default [] upstream_tasks)
    (λ _ x, add_edge x task None) () ;;
  for_each (default [] downstream_tasks)
    (λ _ x, add_edge task x None) () ;;
  for_each (default [] upstream_results)
    (λ _ kx, add_edge kx.2 task (Some kx.1)) ().

Definition edges_to (task : string + Task.t) : M (gset Edge.t) :=
  let name := name_of task in
  self ← get ;
  ret (list_to_set
         (filter (λ e, Edge.downstream_task e = name) (iter (edges self)))).

Definition edges_from (task : string + Task.t) : M (gset Edge.t) :=
  let name := name_of task in
  self ← get ;
  ret (list_to_set
         (filter (λ e, Edge.upstream_task e = name) (iter (edges self)))).

Definition root_tasks : M (gset Task.t) :=
  self ← get ;
  l ← for_each (values self)
         (λ acc x, es ← edges_to (inr x) ;
                   if decide (es = ∅) then ret (acc ++ [x]) else ret acc)
         [] ;
  ret (list_to_set l).

Definition terminal_tasks : M (gset Task.t) :=
  self ← get ;
  l ← for_each (values self)
         (λ acc x, es ← edges_from (inr x) ;
                   if decide (es = ∅) then ret (acc ++ [x]) else ret acc)
         [] ;
  ret (list_to_set l).

Definition parameters (only_required : bool) : M (gmap string (bool * option Z)) :=
  self ← get ;
  ret (foldl
         (λ acc x,
            if Task.is_parameter x
               && (if only_required then Task.required x else true)
            then <[Task.name x := (Task.required x, Task.default x)]> acc
            else acc)
         ∅ (values self)).

(** [copy.copy(self)] with fresh [tasks] and [edges]; [add_task] is called
    on the copy, and the edges are put into its set directly. *)
Definition sub_flow (root_tasks : option (list (string + Task.t))) : M t :=
  self ← get ;
  let sub_flow := set_edges ∅ (set_tasks ∅ self) in
  sorted ← sorted_tasks root_tasks ;
  r ← on_object sub_flow (for_each sorted (λ _ x, add_task x) ()) ;
  let sub_flow := r.1 in
  ret (foldl
         (λ sub e,
            if decide (Edge.upstream_task e ∈ dom (tasks sub)
                       ∧ Edge.downstream_task e ∈ dom (tasks sub))
            then set_edges (edges sub ∪ {[e]}) sub
            else sub)
         sub_flow (iter (edges self))).


Definition serialize `{Collaborators} : M serialized :=
  self ← get ;
  sorted ← sorted_tasks None ;
  let tasks := imap (λ i x, with_sort_order (Task_serialize x) (i + 1)) sorted in
  let edges := Edge_serialize <$> iter (edges self) in
  slug ← slug ;
  parameters ← parameters false ;
  ret (mk_serialized _ (project self) (name self) slug (version self)
         (utilities_serialize (set_edges ∅ (set_tasks ∅ self)))
         tasks edges parameters (description self)
         (schedule_serialize (schedule self)) (concurrent_runs self)
         (cluster self)).

(** A class method: it starts from a new [Flow] object, on which
    [add_task], [get_task] and [add_edge] are then called. *)
Definition safe_deserialize `{Collaborators} (s : serialized) : outcome t :=
  match init (s_name s) (s_version s) (s_project s)
             (schedules_deserialize (s_schedule s)) (s_concurrent_runs s)
             None None with
  | Return flow =>
      let rebuild : M unit :=
        for_each (s_tasks s)
          (λ _ task, add_task (Task_safe_deserialize task)) () ;;
        for_each (s_edges s)
          (λ _ edge,
             u ← get_task (Edge.upstream_task edge) ;
             d ← get_task (Edge.downstream_task edge) ;
             add_edge u d (Edge.key edge)) () in
      match rebuild flow with
      | (flow', Return _) => Return flow'
      | (_, Raise e) => Raise e
      | (_, Unfinished) => Unfinished
      end
  | Raise e => Raise e
  | Unfinished => Unfinished
  end.

(** What iterating over a value yields, for the one-argument [tuple(x)]. *)
Definition iterate (x : pyobj) : outcome (list pyobj) :=
  match x with
  | PyStr s => Return ((λ c, PyStr (String c "")) <$> String.list_ascii_of_string s)
  | PyDict d => Return (PyStr <$> (map_to_list d).*1)
  | PySet s => Return (PyEdge <$> iter s)
  | PyType _ | PyNone | PyEdge _ => Raise (TypeError NotIterable)
  end.

(** The builtin [tuple]: no argument, or one iterable. *)
Definition py_tuple (args : list pyobj) : outcome (list pyobj) :=
  match args with
  | [] => Return []
  | [x] => iterate x
  | _ :: _ :: _ => Raise (TypeError TupleArity)
  end.

Definition lift {A} (o : outcome A) : M A := λ self, (self, o).

Definition _comps : M (list pyobj) :=
  self ← get ;
  lift (py_tuple [PyType "Flow"; PyStr (project self); PyStr (name self);
                  from_option PyStr PyNone (version self);
                  PyDict (tasks self); PySet (edges self)]).

Definition __eq__ (other : t) : M bool :=
  a ← _comps ;
  b ← on_object other _comps ;
  ret (bool_decide (a = b.2)).
(** [__iter__] *)
Definition __iter__ : M (list Task.t) := sorted_tasks None.

(** [__json__] *)
Definition __json__ `{Collaborators} : M serialized := serialize.

(** [run].  The runner ([prefect.engine.flow_runner.FlowRunner]) is outside
    the source files: [runner_run self executor] stands for
    [FlowRunner(flow=self, executor=executor).run].  [parameters or {}] is
    the given mapping or an empty one; the loop moves every keyword argument
    that names a parameter of the flow from [kwargs] into it. *)
Definition run {E V R}
    (runner_run : t → option E → gmap string V → bool → gmap string V → R)
    (parameters' : option (gmap string V)) (executor : option E)
    (return_all_task_states : bool) (kwargs : gmap string V) : M R :=
  self ← get ;
  ps ← parameters false ;
  let st :=
    foldl (λ (st : gmap string V * gmap string V) p,
             match st.2 !! p with
             | Some v => (<[p := v]> st.1, delete p st.2)
             | None => st
             end)
          (default ∅ parameters', kwargs) (map_to_list ps).*1 in
  ret (runner_run self executor st.1 return_all_task_states st.2).

(** Collaborators of the full path [deserialize]: the object deserializer
    applied to the ['serialized'] blob, [Task.deserialize] and
    [Edge.deserialize]. *)
Class FullCollaborators `{Collaborators} := {
  utilities_deserialize : string → t;
  Task_deserialize : STask → Task.t;
  Edge_deserialize : Edge.t → Edge.t
}.

(** [deserialize], a class method.  The [isinstance(obj, cls)] test always
    succeeds on [t].  The tasks go through [add_task]; the edge set and the
    schedule are assigned to the attributes. *)
Definition deserialize `{Collaborators} `{!FullCollaborators} (s : serialized)
    : outcome t :=
  let obj := set_tasks ∅ (utilities_deserialize (s_serialized s)) in
  match for_each (s_tasks s) (λ _ task, add_task (Task_deserialize task)) () obj with
  | (obj, Return _) =>
      let obj := set_edges (list_to_set (Edge_deserialize <$> s_edges s)) obj in
      Return (mk (name obj) (version obj) (project obj) (description obj)
                 (schedules_deserialize (s_schedule s)) (concurrent_runs obj)
                 (cluster obj) (tasks obj) (edges obj))
  | (_, Raise e) => Raise e
  | (_, Unfinished) => Unfinished
  end.

End methods.
End Flow.


(** ** DaskExecutor *)

Module DaskExecutor.

(** Values that travel through the executor.  Modelled from the spec:
    [distributed.Client] is outside the source files; a future is "a
    future-like handle representing the eventual result", and a result may
    itself hold futures ("futures that resolve to other futures"). *)
#[local] Unset Elimination Schemes.
Inductive value :=
  | VNone
  | VInt (z : Z)
  | VList (l : list value)
  | VFuture (result : value).
#[local] Set Elimination Schemes.

(** An instance attribute that may not exist ([hasattr]). *)
Inductive attribute (A : Type) :=
  | Unset
  | Bound (a : A).
Arguments Unset {A}.
Arguments Bound {A} a.

Record Client := mk_client { scheduler : option string }.

Record t := mk {
  address : option string;
  processes : bool;
  debug : bool;
  is_started : bool;
  client : attribute (option Client)
}.

(** [__init__]: no [client] attribute is assigned. *)
Definition init (address : option string) (processes debug : bool) : t :=
  mk address processes debug false Unset.

(** [start] is a context manager: the body of the [with] block runs on
    [start_enter self], and [start_exit] is the [finally] clause. *)
Definition start_enter (self : t) : t :=
  mk (address self) (processes self) (debug self) true
     (Bound (Some (mk_client (address self)))).
Definition start_exit (self : t) : t :=
  mk (address self) (processes self) (debug self) false (Bound None).

Definition hasattr_client (self : t) : bool :=
  match client self with Unset => false | Bound _ => true end.

Definition callable : Type := list value → value.

(** Modelled from the spec: [Client.submit] returns a future whose result is
    the value of the call. *)
Definition Client_submit (fn : callable) (args : list value) : value :=
  VFuture (fn args).

(** Modelled from the spec: [Client.gather] is one resolution pass; it
    replaces every future of a (nested) list by its result and keeps the
    shape and the order of the list. *)
Fixpoint gather (v : value) : value :=
  match v with
  | VFuture result => result
  | VList l => VList (List.map gather l)
  | VNone | VInt _ => v
  end.

Definition submit (fn : callable) (args : list value) (self : t)
    : outcome value :=
  if is_started self && hasattr_client self then
    match client self with
    | Bound (Some _) => Return (Client_submit fn args)
    | _ => Raise (AttributeError NoSuchAttribute)
    end
  else if is_started self then
    (* with worker_client(separate_thread=False) as client *)
    Return (Client_submit fn args)
  else
    (* neither branch is taken: the method ends without a return statement *)
    Return VNone.

(** [dict_to_list] is a parameter: it turns [upstream_states] into one
    argument per call. *)
Definition mapper (dict_to_list : value → list value) (fn : callable)
    (args : list value) (upstream_states : value) : value :=
  VList ((λ elem, Client_submit fn (args ++ [elem]))
           <$> dict_to_list upstream_states).

Definition map (dict_to_list : value → list value) (fn : callable)
    (args : list value) (upstream_states : value) (self : t)
    : outcome value :=
  if is_started self && hasattr_client self then
    match client self with
    | Bound (Some _) =>
        Return (VFuture (mapper dict_to_list fn args upstream_states))
    | _ => Raise (AttributeError NoSuchAttribute)
    end
  else if is_started self then
    Return (VFuture (mapper dict_to_list fn args upstream_states))
  else Raise (ValueError ExecutorMustBeStarted).

(** [timeout] is a parameter of the method that its body never reads. *)
Definition wait (futures : value) (timeout : option nat) (self : t)
    : outcome value :=
  match client self with
  | Bound (Some _) =>
      (* num_futures = len(self.client.futures) *)
      Return (gather (gather (gather (gather futures))))
  | Bound None | Unset => Raise (AttributeError NoSuchAttribute)
  end.

(** How many resolution passes a value needs, and the value they lead to. *)
Fixpoint passes_needed (v : value) : nat :=
  match v with
  | VFuture result => S (passes_needed result)
  | VList l => foldr (λ x n, passes_needed x `max` n) 0 l
  | VNone | VInt _ => 0
  end.

Fixpoint resolve (v : value) : value :=
  match v with
  | VFuture result => resolve result
  | VList l => VList (List.map resolve l)
  | VNone | VInt _ => v
  end.





End DaskExecutor.

(** ** The invariants of a Flow (section 3 of the specification) *)

Definition names_ok (f : Flow.t) : Prop :=
  map_Forall (λ k x, Task.name x = k) (Flow.tasks f).

Definition slugs_unique (f : Flow.t) : Prop :=
  map_Forall (λ k1 x1,
    map_Forall (λ k2 x2, Task.slug x1 = Task.slug x2 → k1 = k2) (Flow.tasks f))
    (Flow.tasks f).

Definition endpoints_ok (f : Flow.t) : Prop :=
  set_Forall (λ e, is_Some (Flow.tasks f !! Edge.upstream_task e)
                   ∧ is_Some (Flow.tasks f !! Edge.downstream_task e))
    (Flow.edges f).

Definition keys_unique (f : Flow.t) : Prop :=
  set_Forall (λ e1,
    set_Forall (λ e2,
      Edge.downstream_task e1 = Edge.downstream_task e2 →
      Edge.key e1 = Edge.key e2 → Edge.key e1 ≠ None → e1 = e2)
      (Flow.edges f))
    (Flow.edges f).

(** The relation "upstream_task → downstream_task" on task names. *)
Definition edge_rel (f : Flow.t) (u d : string) : Prop :=
  ∃ k, Edge.mk u d k ∈ Flow.edges f.

Definition acyclic (f : Flow.t) : Prop := ∀ n, ¬ tc (edge_rel f) n n.

(** In the sequence [l], a task named [u] stands strictly before a task
    named [d]. *)
Definition before (l : list Task.t) (u d : string) : Prop :=
  ∃ i j x y, l !! i = Some x ∧ l !! j = Some y
             ∧ Task.name x = u ∧ Task.name y = d ∧ i < j.

(** The tasks reachable downstream from the roots [R]. *)
Inductive reach (f : Flow.t) (R : gset Task.t) : Task.t → Prop :=
  | reach_root x : x ∈ R → reach f R x
  | reach_step u e x :
      reach f R u → e ∈ Flow.edges f →
      Edge.upstream_task e = Task.name u →
      Flow.tasks f !! Edge.downstream_task e = Some x →
      reach f R x.

(** ** What the loops compute, as plain functions (used in the proofs) *)

(** The tasks directly upstream and downstream of the task named [n]. *)
Definition ups (f : Flow.t) (n : string) : gset Task.t :=
  set_omap (λ e, Flow.tasks f !! Edge.upstream_task e)
    (filter (λ e, Edge.downstream_task e = n) (Flow.edges f)).

Definition downs (f : Flow.t) (n : string) : gset Task.t :=
  set_omap (λ e, Flow.tasks f !! Edge.downstream_task e)
    (filter (λ e, Edge.upstream_task e = n) (Flow.edges f)).

Definition place_pure (f : Flow.t) (st : gset Task.t * list Task.t * bool)
    (x : Task.t) : gset Task.t * list Task.t * bool :=
  if decide (ups f (Task.name x) ∩ st.1.1 = ∅)
  then (st.1.1 ∖ {[x]}, st.1.2 ++ [x], true)
  else st.

Definition expand_pure (f : Flow.t) (st : gset Task.t * gset Task.t)
    (x : Task.t) : gset Task.t * gset Task.t :=
  (st.1 ∪ downs f (Task.name x), st.2 ∪ {[x]}).

(** The invariant of the sorting loop over the working set [W]: [s] lists
    the tasks already taken out of [T], each after its upstream tasks. *)
Record sort_inv (f : Flow.t) (W T : gset Task.t) (s : list Task.t) : Prop := {
  inv_sub : T ⊆ W;
  inv_nodup : NoDup s;
  inv_elem : ∀ x, x ∈ s ↔ x ∈ W ∧ x ∉ T;
  inv_order : ∀ j x u, s !! j = Some x → u ∈ ups f (Task.name x) → u ∈ W →
                ∃ i, i < j ∧ s !! i = Some u
}.

(** ** What [add_edge] does before it sorts (used in the proofs) *)

(** [if task not in self.tasks.values(): self.add_task(task)], when it succeeds *)
Definition with_endpoint (x : Task.t) (f : Flow.t) : Flow.t :=
  if decide (x ∈ Flow.values f) then f
  else Flow.set_tasks (<[Task.name x := x]> (Flow.tasks f)) f.

(** The endpoint is in the flow already, or [add_task] accepts it. *)
Definition addable (x : Task.t) (f : Flow.t) : Prop :=
  x ∈ Flow.values f ∨ Task.slug x ∉ Task.slug <$> Flow.values f.

(** No edge into the task named [d] carries the key. *)
Definition key_free (d : string) (key : option string) (f : Flow.t) : Prop :=
  match key with
  | Some k =>
      set_Forall (λ e, ¬ (Edge.downstream_task e = d ∧ Edge.key e = Some k))
        (Flow.edges f)
  | None => True
  end.

(** The flow with both endpoints present and the edge in its edge set. *)
Definition committed (u d : Task.t) (key : option string) (f : Flow.t) : Flow.t :=
  let f' := with_endpoint d (with_endpoint u f) in
  Flow.set_edges
    (Flow.edges f' ∪ {[Edge.mk (Task.name u) (Task.name d) key]}) f'.

(** ** Root tasks and the tasks of a sub-flow (used in the proofs) *)

(** A root is given as a name or as a task object. *)
Definition root_task (f : Flow.t) (r : string + Task.t) : option Task.t :=
  match r with inl s => Flow.tasks f !! s | inr x => Some x end.

Definition root_set (f : Flow.t) (roots : list (string + Task.t)) : gset Task.t :=
  list_to_set (omap (root_task f) roots).

(** Every root is a task of the flow. *)
Definition roots_ok (f : Flow.t) (roots : list (string + Task.t)) : Prop :=
  Forall (λ r, match r with
               | inl s => is_Some (Flow.tasks f !! s)
               | inr x => x ∈ Flow.values f
               end) roots.

(** [self.tasks[task.name] = task] *)
Definition store_task (g : Flow.t) (x : Task.t) : Flow.t :=
  Flow.set_tasks (<[Task.name x := x]> (Flow.tasks g)) g.

(** ** Serialized tasks (used in the round trip) *)

(** What the round trip asks of the task and edge serializers: the task that
    [Task.safe_deserialize] builds from a serialized task has the name, the
    slug and the kind (with [required] and [default] for a parameter) of the
    task that was serialized, whatever the [sort_order]; and a serialized
    edge has the three entries of the edge. *)
Definition faithful `{Flow.Collaborators} : Prop :=
  (∀ x i,
     let y := Flow.Task_safe_deserialize
                (Flow.with_sort_order (Flow.Task_serialize x) i) in
     Task.name y = Task.name x ∧ Task.slug y = Task.slug x
     ∧ Task.kind_of y = Task.kind_of x)
  ∧ (∀ e, Flow.Edge_serialize e = e).

(** Modelled from the spec: the persisted representation holds "an ordered
    list of task records (each with a [sort_order])", and the safe path
    rebuilds "tasks as name/slug/type placeholders" that still answer the
    "parameter listing".  A serialized task is the triple of name, slug and
    kind with its sort order; the placeholder is a new object. *)
Definition plain_codec : Flow.Collaborators := {|
  Flow.slugify := id;
  Flow.STask := string * string * Task.kind * option nat;
  Flow.Task_serialize := λ x, (Task.name x, Task.slug x, Task.kind_of x, None);
  Flow.with_sort_order := λ r i, (r.1, Some i);
  Flow.Task_safe_deserialize := λ r, Task.mk 0 r.1.1.1 r.1.1.2 r.1.2;
  Flow.Edge_serialize := id;
  Flow.utilities_serialize := λ _, "";
  Flow.schedule_serialize := id;
  Flow.schedules_deserialize := id
|}.

(** The tasks that [safe_deserialize] builds from the serialized tasks of
    the sorted list [l]. *)
Definition placeholders `{Flow.Collaborators} (l : list Task.t) : list Task.t :=
  imap (λ i x, Flow.Task_safe_deserialize
                 (Flow.with_sort_order (Flow.Task_serialize x) (i + 1))) l.

(** The entry of [parameters()] for a task, if it has one. *)
Definition parameter_entry (only_required : bool) (x : Task.t)
    : option (bool * option Z) :=
  if Task.is_parameter x && (if only_required then Task.required x else true)
  then Some (Task.required x, Task.default x) else None.

(** ** Executors and futures used as examples *)

(** An executor that was never started, and the same executor inside the
    [with executor.start():] block. *)
Definition fresh_executor : DaskExecutor.t := DaskExecutor.init None false false.
Definition started_executor : DaskExecutor.t := DaskExecutor.start_enter fresh_executor.

(** A callable that adds up its integer arguments. *)
Definition add_all : DaskExecutor.callable :=
  λ args,
    DaskExecutor.VInt
      (foldr (λ v acc, match v with DaskExecutor.VInt z => (z + acc)%Z | _ => acc end)
             0%Z args).

(** A future nested five deep around the integer 1. *)
Definition nested5 : DaskExecutor.value :=
  DaskExecutor.VFuture (DaskExecutor.VFuture (DaskExecutor.VFuture
    (DaskExecutor.VFuture (DaskExecutor.VFuture (DaskExecutor.VInt 1))))).

(** A method preserves [P] when the object satisfies [P] after every call
    that started from an object satisfying it, whatever the outcome. *)
Definition preserves (P : Flow.t → Prop) {A} (m : Flow.M A) : Prop :=
  ∀ f, P f → P (m f).1.

(** The four structural invariants together. *)
Definition flow_inv (f : Flow.t) : Prop :=
  names_ok f ∧ slugs_unique f ∧ endpoints_ok f ∧ keys_unique f.

(** Whenever the method returns from an object satisfying [P], the object
    it leaves behind satisfies [Q]. *)
Definition returns_with (P Q : Flow.t → Prop) {A} (m : Flow.M A) : Prop :=
  ∀ f f' a, P f → m f = (f', Return a) → Q f'.

(** Two flow objects with the same attributes other than the graph. *)
Definition same_attrs (g g' : Flow.t) : Prop :=
  Flow.name g = Flow.name g' ∧ Flow.version g = Flow.version g'
  ∧ Flow.project g = Flow.project g' ∧ Flow.description g = Flow.description g'
  ∧ Flow.schedule g = Flow.schedule g'
  ∧ Flow.concurrent_runs g = Flow.concurrent_runs g'
  ∧ Flow.cluster g = Flow.cluster g'.

(** A flow that satisfies the structural invariants and has no cycle. *)
Definition graph_ok (f : Flow.t) : Prop := flow_inv f ∧ acyclic f.

(** From an object satisfying [P] the method comes to an end: it returns
    and leaves an object satisfying [P], or it raises a [ValueError]. *)
Definition settles (P : Flow.t → Prop) {A} (m : Flow.M A) : Prop :=
  ∀ f, P f →
    (∃ f' a, m f = (f', Return a) ∧ P f')
    ∨ (∃ f' msg, m f = (f', Raise (ValueError msg))).

(** ** The example scenario of the specification

    Tasks [A], [B], [C]; edges [A→B], [A→C] and [B→C] with key ["b_result"],
    added to a new flow by three calls of [add_edge]. *)

Definition task_A : Task.t := Task.mk 1 "A" "a" Task.Plain.
Definition task_B : Task.t := Task.mk 2 "B" "b" Task.Plain.
Definition task_C : Task.t := Task.mk 3 "C" "c" Task.Plain.

Definition new_flow : Flow.t :=
  Flow.mk "Flow" None "default" None "" None None ∅ ∅.

(** The object after the calls [calls], whatever their outcomes. *)
Definition after (calls : list (Flow.M unit)) (f : Flow.t) : Flow.t :=
  foldl (λ self call, (call self).1) f calls.

Definition scenario : Flow.t :=
  after [ @Flow.add_edge elements_order task_A task_B None;
          @Flow.add_edge elements_order task_A task_C None;
          @Flow.add_edge elements_order task_B task_C (Some "b_result") ]
        new_flow.

(** A task whose slug is that of [task_A]. *)
Definition task_a : Task.t := Task.mk 4 "a" "a" Task.Plain.

Definition scenario_rank (n : string) : nat :=
  if decide (n = "A") then 0 else if decide (n = "B") then 1 else 2.

(** A task that the scenario does not hold, and the scenario after the call
    [add_edge(C, D, key='c_result')], which has to add it. *)
Definition task_D : Task.t := Task.mk 7 "D" "d" Task.Plain.

Definition extended_scenario : Flow.t :=
  after [ @Flow.add_edge elements_order task_C task_D (Some "c_result") ]
        scenario.

Definition extended_rank (n : string) : nat :=
  if decide (n = "D") then 3 else scenario_rank n.

(** A flow that a failed [add_edge] has left with a cycle. *)
Definition cyclic_flow : Flow.t :=
  after [ @Flow.add_edge elements_order task_A task_B None;
          @Flow.add_edge elements_order task_B task_A None ]
        new_flow.

(** Modelled from the spec: the full path "reconstructs the complete Flow
    object graph"; here the blob holds no attribute, and a task or an edge
    is rebuilt as on the safe path. *)
Definition plain_unpickler : @Flow.FullCollaborators plain_codec := {|
  Flow.utilities_deserialize := λ _, new_flow;
  Flow.Task_deserialize := @Flow.Task_safe_deserialize plain_codec;
  Flow.Edge_deserialize := id
|}.

(** A persisted flow whose two edges form a cycle and name a task that is
    not among its tasks. *)
Definition bad_record : @Flow.serialized plain_codec :=
  Flow.mk_serialized plain_codec "default" "Flow" "flow" None ""
    [("A", "a", Task.Plain, Some 1)]
    [Edge.mk "A" "Z" None; Edge.mk "Z" "A" None]
    ∅ None "" None None.

(** A flow with a required and an optional parameter that feed one task. *)
Definition param_required : Task.t :=
  Task.mk 5 "x" "x" (Task.ParameterTask true None).
Definition param_optional : Task.t :=
  Task.mk 6 "y" "y" (Task.ParameterTask false (Some 3%Z)).

Definition parameter_flow : Flow.t :=
  after [ @Flow.add_edge elements_order param_required task_A (Some "x");
          @Flow.add_edge elements_order param_optional task_A (Some "y") ]
        new_flow.

Definition parameter_rank (n : string) : nat :=
  if decide (n = "A") then 1 else 0.

(** A method is read-only when no call of it changes the object, whether it
    returns or raises. *)
Definition readonly {A} (m : Flow.M A) : Prop := ∀ f, (m f).1 = f.

(** * Proofs *)

#[local] Set Warnings "-clear-no-such-hyp".

Ltac unfold_M :=
  unfold mbind, mret, Flow.M_bind, Flow.M_ret, Flow.bind, Flow.ret, Flow.raise,
    Flow.get, Flow.put, Flow.lift, Flow.unfinished in *.

Section iteration.
Context `{SetOrder} `{Countable A}.
Implicit Types X : gset A.

Lemma elem_of_iter X x : x ∈ iter X ↔ x ∈ X.
Proof. rewrite (iter_perm X). apply elem_of_elements. Qed.

Lemma NoDup_iter X : NoDup (iter X).
Proof. rewrite (iter_perm X). apply NoDup_elements. Qed.

Lemma iter_empty : iter (∅ : gset A) = [].
Proof.
  apply Permutation_nil_r. rewrite (iter_perm ∅). by rewrite elements_empty.
Qed.

Lemma list_to_set_iter X : list_to_set (iter X) = X.
Proof. apply set_eq. intros x. by rewrite elem_of_list_to_set, elem_of_iter. Qed.
End iteration.

(** ** Read-only methods *)

Section readonly.
Context `{SetOrder}.

Lemma readonly_ret {A} (a : A) : readonly (Flow.ret a).
Proof. by intros f. Qed.
Lemma readonly_mret {A} (a : A) : readonly (mret a).
Proof. by intros f. Qed.
Lemma readonly_raise {A} e : readonly (@Flow.raise A e).
Proof. by intros f. Qed.
Lemma readonly_unfinished {A} : readonly (@Flow.unfinished A).
Proof. by intros f. Qed.
Lemma readonly_lift {A} (o : outcome A) : readonly (Flow.lift o).
Proof. by intros f. Qed.
Lemma readonly_get : readonly Flow.get.
Proof. by intros f. Qed.

Lemma readonly_bind {A B} (m : Flow.M A) (k : A → Flow.M B) :
  readonly m → (∀ a, readonly (k a)) → readonly (m ≫= k).
Proof.
  intros Hm Hk f. unfold_M. specialize (Hm f).
  destruct (m f) as [f' [a| |]]; simpl in *; subst; [apply Hk|done..].
Qed.

Lemma readonly_on_object {A} obj (m : Flow.M A) :
  readonly (Flow.on_object obj m).
Proof. intros f. unfold Flow.on_object. by destruct (m obj) as [? [| |]]. Qed.

Lemma readonly_for_each {A S} (l : list A) (body : S → A → Flow.M S) s :
  (∀ s x, readonly (body s x)) → readonly (Flow.for_each l body s).
Proof.
  intros Hb. revert s. induction l as [|x l IH]; intros s; simpl.
  - apply readonly_ret.
  - apply readonly_bind; [apply Hb | intros; apply IH].
Qed.

Lemma readonly_comprehension {A B} (g : A → Flow.M B) (l : list A) :
  (∀ x, readonly (g x)) → readonly (Flow.comprehension g l).
Proof.
  intros Hg. induction l as [|x l IH]; simpl.
  - apply readonly_ret.
  - apply readonly_bind; [apply Hg | intros y].
    apply readonly_bind; [apply IH | intros; apply readonly_ret].
Qed.

(** The state a read-only call leaves behind. *)
Lemma readonly_run {A} (m : Flow.M A) f : readonly m → m f = (f, (m f).2).
Proof. intros Hm. specialize (Hm f). by destruct (m f); simpl in *; subst. Qed.

Ltac ro :=
  repeat first
    [ apply readonly_ret | apply readonly_mret | apply readonly_raise
    | apply readonly_unfinished | apply readonly_get | apply readonly_lift
    | apply readonly_on_object
    | apply readonly_bind; [|intros ?]
    | apply readonly_for_each; intros ? ?
    | apply readonly_comprehension; intros ?
    | progress case_match
    | progress case_decide ].

Lemma readonly_get_task n : readonly (Flow.get_task n).
Proof. unfold Flow.get_task. ro. Qed.

Lemma readonly_upstream_tasks x : readonly (Flow.upstream_tasks x).
Proof. unfold Flow.upstream_tasks. ro. Qed.

Lemma readonly_downstream_tasks x : readonly (Flow.downstream_tasks x).
Proof. unfold Flow.downstream_tasks. ro. Qed.

Lemma readonly_edges_to x : readonly (Flow.edges_to x).
Proof. unfold Flow.edges_to. ro. Qed.

Lemma readonly_edges_from x : readonly (Flow.edges_from x).
Proof. unfold Flow.edges_from. ro. Qed.

Lemma readonly_root_tasks : readonly Flow.root_tasks.
Proof. unfold Flow.root_tasks. ro. Qed.

Lemma readonly_terminal_tasks : readonly Flow.terminal_tasks.
Proof. unfold Flow.terminal_tasks. ro. Qed.

Lemma readonly_parameters b : readonly (Flow.parameters b).
Proof. unfold Flow.parameters. ro. Qed.

Lemma readonly_expand st x : readonly (Flow.expand st x).
Proof. unfold Flow.expand. ro. Qed.

Lemma readonly_closure_loop n T seen : readonly (Flow.closure_loop n T seen).
Proof.
  revert T seen. induction n as [|n IH]; intros T seen; simpl; ro.
  all: first [apply IH | apply readonly_expand].
Qed.

Lemma readonly_place st x : readonly (Flow.place st x).
Proof. unfold Flow.place. destruct st as [[T s] b]. ro. Qed.

Lemma readonly_sort_loop n T s : readonly (Flow.sort_loop n T s).
Proof.
  revert T s. induction n as [|n IH]; intros T s; simpl; ro.
  all: first [apply IH | apply readonly_place].
Qed.

Lemma readonly_sorted_tasks roots : readonly (Flow.sorted_tasks roots).
Proof.
  unfold Flow.sorted_tasks. ro.
  all: first [apply readonly_closure_loop | apply readonly_sort_loop].
Qed.

Lemma readonly_slug `{Flow.Collaborators} : readonly Flow.slug.
Proof. unfold Flow.slug. ro. Qed.

End readonly.

(** ** Queries on a well-formed flow *)

Section queries.
Context `{SetOrder} (f : Flow.t).

Lemma elem_of_values x :
  x ∈ Flow.values f ↔ ∃ k, Flow.tasks f !! k = Some x.
Proof.
  unfold Flow.values. rewrite list_elem_of_fmap. split.
  - intros [[k y] [-> Hk]]. exists k. by apply elem_of_map_to_list.
  - intros [k Hk]. exists (k, x). split; [done|]. by apply elem_of_map_to_list.
Qed.

Lemma elem_of_ups n x :
  x ∈ ups f n ↔
  ∃ e, e ∈ Flow.edges f ∧ Edge.downstream_task e = n
       ∧ Flow.tasks f !! Edge.upstream_task e = Some x.
Proof.
  unfold ups. rewrite elem_of_set_omap. split.
  - intros [e [He Hx]]. apply elem_of_filter in He as [? ?]. eauto.
  - intros [e (He & Hd & Hx)]. exists e. split; [|done].
    by apply elem_of_filter.
Qed.

Lemma elem_of_downs n x :
  x ∈ downs f n ↔
  ∃ e, e ∈ Flow.edges f ∧ Edge.upstream_task e = n
       ∧ Flow.tasks f !! Edge.downstream_task e = Some x.
Proof.
  unfold downs. rewrite elem_of_set_omap. split.
  - intros [e [He Hx]]. apply elem_of_filter in He as [? ?]. eauto.
  - intros [e (He & Hd & Hx)]. exists e. split; [|done].
    by apply elem_of_filter.
Qed.

Lemma get_task_run n :
  Flow.get_task n f =
  (f, match Flow.tasks f !! n with
      | Some x => Return x
      | None => Raise NotFoundError
      end).
Proof. unfold Flow.get_task. unfold_M. by destruct (Flow.tasks f !! n). Qed.

Lemma for_each_pure {A S} (l : list A) (body : S → A → Flow.M S)
    (g : S → A → S) s :
  (∀ s x, x ∈ l → body s x f = (f, Return (g s x))) →
  Flow.for_each l body s f = (f, Return (foldl g s l)).
Proof.
  revert s. induction l as [|x l IH]; intros s Hb; simpl; [done|].
  unfold_M. rewrite Hb by left. apply IH. intros; apply Hb. by right.
Qed.

Lemma comprehension_get_task (g : Edge.t → string) (l : list Edge.t) :
  Forall (λ e, is_Some (Flow.tasks f !! g e)) l →
  Flow.comprehension (λ e, Flow.get_task (g e)) l f =
  (f, Return (omap (λ e, Flow.tasks f !! g e) l)).
Proof.
  induction 1 as [|e l [x Hx] _ IH]; simpl; [done|].
  unfold_M. rewrite get_task_run, Hx. fold (@Flow.bind). unfold_M.
  by rewrite IH.
Qed.

Context (He : endpoints_ok f).

Lemma upstream_tasks_run x :
  Flow.upstream_tasks x f = (f, Return (ups f (Flow.name_of x))).
Proof.
  unfold Flow.upstream_tasks. unfold_M.
  rewrite comprehension_get_task.
  - f_equal. f_equal. apply set_eq. intros y.
    rewrite elem_of_list_to_set, list_elem_of_omap, elem_of_ups.
    split; intros [e Hy]; exists e;
      rewrite list_elem_of_filter, elem_of_iter in *; naive_solver.
  - apply Forall_forall. intros e [_ Hin%elem_of_iter]%list_elem_of_filter.
    by apply He.
Qed.

Lemma downstream_tasks_run x :
  Flow.downstream_tasks x f = (f, Return (downs f (Flow.name_of x))).
Proof.
  unfold Flow.downstream_tasks. unfold_M.
  rewrite comprehension_get_task.
  - f_equal. f_equal. apply set_eq. intros y.
    rewrite elem_of_list_to_set, list_elem_of_omap, elem_of_downs.
    split; intros [e Hy]; exists e;
      rewrite list_elem_of_filter, elem_of_iter in *; naive_solver.
  - apply Forall_forall. intros e [_ Hin%elem_of_iter]%list_elem_of_filter.
    by apply He.
Qed.

Lemma place_run st x : Flow.place st x f = (f, Return (place_pure f st x)).
Proof.
  destruct st as [[T s] b]. unfold Flow.place, place_pure. unfold_M.
  rewrite upstream_tasks_run. simpl.
  destruct (existsb _ _) eqn:Hex; case_decide as Hd; try done.
  - apply existsb_exists in Hex as (u & Hu%list_elem_of_In%elem_of_iter & HT).
    apply bool_decide_eq_true in HT. set_solver.
  - apply set_choose_L in Hd as [u [Hu HT]%elem_of_intersection].
    assert (existsb (λ u, bool_decide (u ∈ T)) (iter (ups f (Task.name x)))
            = true) as Heq; [|congruence].
    apply existsb_exists. exists u. split.
    + by apply list_elem_of_In, elem_of_iter.
    + by apply bool_decide_eq_true.
Qed.

Lemma expand_run st x : Flow.expand st x f = (f, Return (expand_pure f st x)).
Proof.
  unfold Flow.expand, expand_pure. unfold_M.
  by rewrite downstream_tasks_run.
Qed.

Lemma pass_run T s b l :
  Flow.for_each l Flow.place (T, s, b) f
  = (f, Return (foldl (place_pure f) (T, s, b) l)).
Proof. apply for_each_pure. intros; apply place_run. Qed.

Lemma round_run l st :
  Flow.for_each l Flow.expand st f = (f, Return (foldl (expand_pure f) st l)).
Proof. apply for_each_pure. intros; apply expand_run. Qed.

End queries.

(** ** Cycles *)

(** In a non-empty finite set where every element has a predecessor in the
    set, the relation has a cycle. *)
Lemma descent `{Countable A} (R : relation A) (T : gset A) :
  T ≠ ∅ → (∀ x, x ∈ T → ∃ u, u ∈ T ∧ tc R u x) → ∃ x, tc R x x.
Proof.
  induction T as [|a T Ha IH] using set_ind_L; [done|].
  intros _ Hpred.
  destruct (Hpred a) as (v & Hv & Hva); [set_solver|].
  destruct (decide (v = a)) as [->|Hne]; [by exists a|].
  assert (v ∈ T) as HvT by set_solver.
  apply IH; [set_solver|].
  intros x Hx. destruct (Hpred x) as (u & Hu & Hux); [set_solver|].
  destruct (decide (u = a)) as [->|Hne'].
  - exists v. split; [done|]. by etrans.
  - exists u. split; [set_solver|done].
Qed.

Section cycles.
Context (f : Flow.t) (Hn : names_ok f).

Lemma ups_name n u : u ∈ ups f n → edge_rel f (Task.name u) n.
Proof.
  intros (e & He & Hd & Hu)%elem_of_ups.
  apply Hn in Hu. exists (Edge.key e). rewrite Hu, <- Hd. by destruct e.
Qed.

Lemma tc_ups_name u x :
  tc (λ u x, u ∈ ups f (Task.name x)) u x →
  tc (edge_rel f) (Task.name u) (Task.name x).
Proof.
  induction 1 as [u x Hux|u v x Huv _ IH].
  - apply tc_once. by apply ups_name.
  - eapply tc_l; [|apply IH]. by apply ups_name.
Qed.

Lemma blocked_cycle (T : gset Task.t) :
  T ≠ ∅ → (∀ x, x ∈ T → ups f (Task.name x) ∩ T ≠ ∅) → ¬ acyclic f.
Proof.
  intros HT Hb Hac.
  destruct (descent (λ u x, u ∈ ups f (Task.name x)) T HT) as [x Hx].
  - intros x Hx. apply Hb, set_choose_L in Hx as [u Hu].
    exists u. split; [set_solver|]. apply tc_once. set_solver.
  - by apply tc_ups_name, Hac in Hx.
Qed.

(** Tasks of the mapping are told apart by their names. *)
Lemma values_name_inj x y :
  x ∈ Flow.values f → y ∈ Flow.values f → Task.name x = Task.name y → x = y.
Proof.
  intros [k Hk]%elem_of_values [k' Hk']%elem_of_values Heq.
  pose proof (Hn _ _ Hk) as Hx. pose proof (Hn _ _ Hk') as Hy.
  simpl in *. congruence.
Qed.

Lemma NoDup_values : NoDup (Flow.values f).
Proof.
  unfold Flow.values. apply NoDup_fmap_2_strong; [|apply NoDup_map_to_list].
  intros [k x] [k' y] Hx%elem_of_map_to_list Hy%elem_of_map_to_list. simpl.
  intros ->. apply Hn in Hx, Hy. simpl in *. congruence.
Qed.

Lemma before_trans l a b c :
  NoDup (Task.name <$> l) → before l a b → before l b c → before l a c.
Proof.
  intros Hnd (i & j & x & y & Hi & Hj & <- & <- & Hij)
         (i' & j' & y' & z & Hi' & Hj' & Hy' & <- & Hij').
  assert (j = i') as ->.
  { eapply NoDup_lookup; [done|..]; rewrite list_lookup_fmap.
    - by rewrite Hj.
    - by rewrite Hi', <- Hy'. }
  exists i, j', x, z. repeat split; try done. lia.
Qed.

Lemma before_irrefl l a : NoDup (Task.name <$> l) → ¬ before l a a.
Proof.
  intros Hnd (i & j & x & y & Hi & Hj & <- & Hy & Hij).
  assert (i = j); [|lia].
  eapply NoDup_lookup; [done|..]; rewrite list_lookup_fmap.
  - by rewrite Hi.
  - rewrite Hj. simpl. by rewrite Hy.
Qed.

Lemma before_acyclic l :
  NoDup (Task.name <$> l) →
  (∀ e, e ∈ Flow.edges f →
     before l (Edge.upstream_task e) (Edge.downstream_task e)) →
  acyclic f.
Proof.
  intros Hnd Hb n Hc.
  assert (∀ a b, tc (edge_rel f) a b → before l a b) as Htc.
  { induction 1 as [a b [k Hk]|a b c [k Hk] _ IH].
    - apply (Hb _ Hk).
    - eapply before_trans; [done| |done]. apply (Hb _ Hk). }
  by eapply before_irrefl, Htc.
Qed.

End cycles.

(** ** The sorting loop *)

Section sorting.
Context `{SetOrder} (f : Flow.t) (W : gset Task.t).

Lemma sort_inv_init : sort_inv f W W [].
Proof.
  split; [done|constructor| |].
  - intros x. rewrite elem_of_nil. tauto.
  - intros j x u Hj. by rewrite lookup_nil in Hj.
Qed.

Lemma place_pure_inv T s b x :
  sort_inv f W T s → x ∈ T →
  sort_inv f W (place_pure f (T, s, b) x).1.1 (place_pure f (T, s, b) x).1.2.
Proof.
  intros [Hsub Hnd Hel Hord] Hx. unfold place_pure. simpl.
  case_decide as Hfree; simpl; [|done].
  split.
  - set_solver.
  - apply NoDup_app. split_and!; [done| |apply NoDup_singleton].
    intros y Hy%Hel. set_solver.
  - intros y. rewrite elem_of_app, Hel, list_elem_of_singleton.
    destruct (decide (y = x)); set_solver.
  - intros j y u [[Hlt Hj]|[-> <-]]%lookup_snoc_Some Hu HuW.
    + destruct (Hord j y u Hj Hu HuW) as (i & Hi & Hiu).
      exists i. split; [done|]. by apply lookup_app_l_Some.
    + assert (u ∈ s) as [i Hi]%list_elem_of_lookup.
      { apply Hel. set_solver. }
      exists i. split; [by eapply lookup_lt_Some|].
      by apply lookup_app_l_Some.
Qed.

Lemma place_pure_shrink T s b x :
  (place_pure f (T, s, b) x).1.1 ⊆ T.
Proof. unfold place_pure. case_decide; simpl; set_solver. Qed.

Lemma pass_spec l T s b :
  NoDup l → (∀ y, y ∈ l → y ∈ T) →
  let r := foldl (place_pure f) (T, s, b) l in
  (sort_inv f W T s → sort_inv f W r.1.1 r.1.2) ∧ r.1.1 ⊆ T
  ∧ (r.2 = true → b = true ∨ r.1.1 ⊂ T)
  ∧ (b = true → r.2 = true)
  ∧ (∀ x, x ∈ l → ups f (Task.name x) ∩ T = ∅ → r.2 = true).
Proof.
  revert T s b. induction l as [|x l IH]; intros T s b Hnd Hin; simpl.
  { split_and!; [done|done|by left|done|]. by intros x ?%elem_of_nil. }
  apply NoDup_cons in Hnd as [Hxl Hnd].
  pose proof (place_pure_inv T s b x) as Hinv1.
  pose proof (place_pure_shrink T s b x) as Hsub1.
  assert (x ∈ T) as HxT by (apply Hin; left).
  destruct (place_pure f (T, s, b) x) as [[T1 s1] b1] eqn:Hst. simpl in *.
  assert (∀ y, y ∈ l → y ∈ T1) as Hin1.
  { intros y Hy. revert Hst. unfold place_pure. simpl.
    case_decide; intros [= <- <- <-].
    - apply elem_of_difference. split; [apply Hin; by right|].
      intros ->%elem_of_singleton. done.
    - apply Hin. by right. }
  destruct (IH T1 s1 b1 Hnd Hin1) as (Hi & Hs & Hflag & Hkeep & Hprog).
  assert (b1 = true → b = true ∨ T1 ⊂ T) as Hb1.
  { revert Hst. unfold place_pure. simpl.
    case_decide; intros [= <- <- <-]; [|by left].
    intros _. right. set_solver. }
  assert (b = true → b1 = true) as Hb1'.
  { revert Hst. unfold place_pure. simpl.
    by case_decide; intros [= <- <- <-]. }
  split_and!; [by auto|set_solver| |by auto|].
  - intros [Hb|Hlt]%Hflag.
    + destruct (Hb1 Hb) as [?|?]; [by left|right]. set_solver.
    + right. set_solver.
  - intros y [->|Hy]%elem_of_cons Hfree.
    + apply Hkeep. revert Hst. unfold place_pure. simpl.
      by case_decide; intros [= <- <- <-].
    + apply (Hprog y Hy). set_solver.
Qed.

Context (He : endpoints_ok f).

(** With enough rounds the loop ends: either it returns a list for which
    the invariant holds with nothing left, or it raises the cycle error,
    and then some non-empty set of tasks has all its members blocked. *)
Lemma sort_loop_spec n T s :
  size T < n → sort_inv f W T s →
  (∃ l, Flow.sort_loop n T s f = (f, Return l) ∧ sort_inv f W ∅ l)
  ∨ (Flow.sort_loop n T s f = (f, Raise CycleError)
     ∧ ∃ T', T' ≠ ∅ ∧ ∀ x, x ∈ T' → ups f (Task.name x) ∩ T' ≠ ∅).
Proof.
  revert T s. induction n as [|n IH]; intros T s Hsz Hinv; [lia|].
  simpl. case_decide as HT.
  { subst. left. by exists s. }
  unfold_M. rewrite pass_run by done.
  destruct (pass_spec (iter T) T s false) as (Hi & Hs & Hflag & _ & Hprog).
  { apply NoDup_iter. } { by intros y ?%elem_of_iter. }
  destruct (foldl _ _ _) as [[T' s'] b'] eqn:Hst. simpl in *.
  destruct b'.
  - destruct (Hflag eq_refl) as [?|Hlt]; [done|].
    apply IH; [|by auto]. apply subset_size in Hlt. lia.
  - right. split; [done|]. exists T. split; [done|].
    intros x Hx Hfree. by specialize (Hprog x (proj2 (elem_of_iter _ _) Hx) Hfree).
Qed.

(** A round that takes no task out of a non-empty set ends the loop with
    the cycle error. *)
Lemma sort_loop_stuck n T s st :
  T ≠ ∅ →
  Flow.for_each (iter T) Flow.place (T, s, false) f = (f, Return st) →
  st.1.1 = T →
  Flow.sort_loop (S n) T s f = (f, Raise CycleError).
Proof.
  intros HT Hrun Hsame. simpl. case_decide; [done|].
  unfold_M. rewrite Hrun. rewrite pass_run in Hrun by done.
  destruct (pass_spec (iter T) T s false) as (_ & _ & Hflag & _).
  { apply NoDup_iter. } { by intros y ?%elem_of_iter. }
  simpl in Hflag. injection Hrun as Hrun. rewrite Hrun in Hflag.
  destruct st as [[T' s'] []]; simpl in *; [|done].
  destruct (Hflag eq_refl) as [?|Hlt]; [done|]. subst. set_solver.
Qed.

End sorting.

Section sorted_all.
Context `{SetOrder} (f : Flow.t) (He : endpoints_ok f) (Hn : names_ok f).

Lemma sorted_tasks_all :
  (∃ l, Flow.sorted_tasks None f = (f, Return l)
        ∧ l ≡ₚ Flow.values f
        ∧ (∀ e, e ∈ Flow.edges f →
             before l (Edge.upstream_task e) (Edge.downstream_task e))
        ∧ acyclic f)
  ∨ (Flow.sorted_tasks None f = (f, Raise CycleError) ∧ ¬ acyclic f).
Proof.
  unfold Flow.sorted_tasks. unfold_M.
  set (All := list_to_set (Flow.values f) : gset Task.t).
  destruct (sort_loop_spec f All He (S (size All)) All []) as
    [(l & -> & [_ Hnd Hel Hord])|[-> (T & HT & Hb)]];
    [lia|apply sort_inv_init| |].
  - left. exists l.
    assert (l ≡ₚ Flow.values f) as Hperm.
    { apply NoDup_Permutation; [done|by apply NoDup_values|].
      intros x. rewrite Hel. unfold All. rewrite elem_of_list_to_set.
      set_solver. }
    assert (∀ e, e ∈ Flow.edges f →
              before l (Edge.upstream_task e) (Edge.downstream_task e)) as Hbef.
    { intros e Hin. destruct (He e Hin) as [[u Hu] [d Hd]].
      assert (d ∈ l) as [j Hj]%list_elem_of_lookup.
      { rewrite Hperm. apply elem_of_values. eauto. }
      destruct (Hord j d u Hj) as (i & Hij & Hi).
      - apply elem_of_ups. exists e. split_and!; [done| |done].
        symmetry. apply (Hn _ _ Hd).
      - unfold All. apply elem_of_list_to_set, elem_of_values. eauto.
      - exists i, j, u, d. split_and!; try done.
        + apply (Hn _ _ Hu).
        + apply (Hn _ _ Hd). }
    split_and!; [done..|].
    apply (before_acyclic f l); [|done].
    apply NoDup_fmap_2_strong; [|done].
    intros x y Hx Hy. rewrite Hperm in Hx, Hy. by apply (values_name_inj f).
  - right. split; [done|]. by apply (blocked_cycle f Hn T).
Qed.

End sorted_all.

(** A rank that grows along every edge shows that a flow is acyclic. *)
Lemma acyclic_by_rank (f : Flow.t) (rank : string → nat) :
  set_Forall (λ e, rank (Edge.upstream_task e) < rank (Edge.downstream_task e))
    (Flow.edges f) →
  acyclic f.
Proof.
  intros Hr n Hc.
  assert (∀ a b, tc (edge_rel f) a b → rank a < rank b) as Htc.
  { induction 1 as [a b [k Hk]|a b c [k Hk] _ IH].
    - apply (Hr _ Hk).
    - specialize (Hr _ Hk). simpl in Hr. lia. }
  specialize (Htc _ _ Hc). lia.
Qed.

(** C1. For a flow that satisfies the name and endpoint invariants:
    if its edges are acyclic, [sorted_tasks()] returns a permutation of the
    tasks of the mapping in which, for every edge, the upstream task stands
    strictly before the downstream task; a round of the sorting loop that
    removes no task from a non-empty remaining set makes the loop raise the
    cycle error; and on a flow with a cycle [sorted_tasks()] raises it. *)
Theorem sorted_tasks_topological `{SetOrder} (f : Flow.t) :
  names_ok f → endpoints_ok f →
  (acyclic f →
   ∃ l, Flow.sorted_tasks None f = (f, Return l)
        ∧ l ≡ₚ Flow.values f
        ∧ ∀ e, e ∈ Flow.edges f →
            before l (Edge.upstream_task e) (Edge.downstream_task e))
  ∧ (∀ n T s st,
       T ≠ ∅ →
       Flow.for_each (iter T) Flow.place (T, s, false) f = (f, Return st) →
       st.1.1 = T →
       Flow.sort_loop (S n) T s f = (f, Raise CycleError))
  ∧ (¬ acyclic f → Flow.sorted_tasks None f = (f, Raise CycleError)).
Proof.
  intros Hn He. split_and!.
  - intros Hac. destruct (sorted_tasks_all f He Hn) as
      [(l & ? & ? & ? & _)|[_ ?]]; [|done]. by exists l.
  - intros n T s st. by apply (sort_loop_stuck f ∅).
  - intros Hcyc. by destruct (sorted_tasks_all f He Hn) as
      [(l & ? & ? & ? & ?)|[? _]].
Qed.

(** C10. No query changes the flow: after [get_task], [upstream_tasks],
    [downstream_tasks], [edges_to], [edges_from], [root_tasks],
    [terminal_tasks], [parameters] and [sorted_tasks] the object is the one
    the call started from, whatever the outcome of the call (a returned value
    or a raised exception). *)
Theorem queries_leave_flow_unchanged `{SetOrder} (f : Flow.t) :
  (∀ n, (Flow.get_task n f).1 = f)
  ∧ (∀ x, (Flow.upstream_tasks x f).1 = f)
  ∧ (∀ x, (Flow.downstream_tasks x f).1 = f)
  ∧ (∀ x, (Flow.edges_to x f).1 = f)
  ∧ (∀ x, (Flow.edges_from x f).1 = f)
  ∧ (Flow.root_tasks f).1 = f
  ∧ (Flow.terminal_tasks f).1 = f
  ∧ (∀ only_required, (Flow.parameters only_required f).1 = f)
  ∧ (∀ roots, (Flow.sorted_tasks roots f).1 = f).
Proof.
  split_and!; intros.
  - apply readonly_get_task.
  - apply readonly_upstream_tasks.
  - apply readonly_downstream_tasks.
  - apply readonly_edges_to.
  - apply readonly_edges_from.
  - apply readonly_root_tasks.
  - apply readonly_terminal_tasks.
  - apply readonly_parameters.
  - apply readonly_sorted_tasks.
Qed.

(** ** Adding tasks and edges *)

Section mutation.
Context `{SetOrder}.

Lemma bind_run {A B} (m : Flow.M A) (k : A → Flow.M B) f f' a :
  m f = (f', Return a) → (m ≫= k) f = k a f'.
Proof. intros Hm. unfold_M. by rewrite Hm. Qed.

Lemma bind_raise {A B} (m : Flow.M A) (k : A → Flow.M B) f f' e :
  m f = (f', Raise e) → (m ≫= k) f = (f', Raise e).
Proof. intros Hm. unfold_M. by rewrite Hm. Qed.

Lemma add_task_run x f :
  Flow.add_task x f =
  if decide (Task.slug x ∈ Task.slug <$> Flow.values f)
  then (f, Raise DuplicateSlugError)
  else (Flow.set_tasks (<[Task.name x := x]> (Flow.tasks f)) f, Return ()).
Proof. unfold Flow.add_task. unfold_M. by case_decide. Qed.

Lemma ensure_run x f :
  addable x f →
  (if decide (x ∈ Flow.values f) then Flow.ret () else Flow.add_task x) f
  = (with_endpoint x f, Return ()).
Proof.
  intros Hadd. unfold with_endpoint. case_decide; [done|].
  rewrite add_task_run. case_decide; [|done]. by destruct Hadd.
Qed.

Lemma key_check_run d key f :
  key_free d key f →
  (match key with
   | Some _ =>
       match filter (λ e, Edge.downstream_task e = d ∧ Edge.key e = key)
               (iter (Flow.edges f)) with
       | [] => Flow.ret ()
       | _ :: _ => Flow.raise (ValueError EdgeKeyAlreadyExists)
       end
   | None => Flow.ret ()
   end) f = (f, Return ()).
Proof.
  destruct key as [k|]; [|done]. simpl. intros Hfree.
  destruct (filter _ _) as [|e l] eqn:Hf; [done|].
  assert (e ∈ filter (λ e, Edge.downstream_task e = d ∧ Edge.key e = Some k)
                (iter (Flow.edges f))) as [He Hin%elem_of_iter]%list_elem_of_filter
    by (rewrite Hf; left).
  by destruct (Hfree e Hin).
Qed.

Lemma key_check_raise d k e f :
  e ∈ Flow.edges f → Edge.downstream_task e = d → Edge.key e = Some k →
  (match Some k with
   | Some _ =>
       match filter (λ e, Edge.downstream_task e = d ∧ Edge.key e = Some k)
               (iter (Flow.edges f)) with
       | [] => Flow.ret ()
       | _ :: _ => Flow.raise (ValueError EdgeKeyAlreadyExists)
       end
   | None => Flow.ret ()
   end) f = (f, Raise DuplicateKeyError).
Proof.
  intros Hin Hd Hk. simpl.
  destruct (filter _ _) as [|e' l] eqn:Hf; [|done].
  assert (e ∈ filter (λ e, Edge.downstream_task e = d ∧ Edge.key e = Some k)
                (iter (Flow.edges f))) as Hin'.
  { apply list_elem_of_filter. split; [done|]. by apply elem_of_iter. }
  rewrite Hf in Hin'. by apply elem_of_nil in Hin'.
Qed.

(** [add_edge] up to its last statement, when the endpoint and key checks
    pass: the edge is in the set when [sorted_tasks] is called, and the
    outcome of the call is that of [sorted_tasks]. *)
Lemma add_edge_run u d key f :
  addable u f → addable d (with_endpoint u f) →
  key_free (Task.name d) key (with_endpoint d (with_endpoint u f)) →
  Flow.add_edge u d key f =
  (committed u d key f,
   match (Flow.sorted_tasks None (committed u d key f)).2 with
   | Return _ => Return ()
   | Raise e => Raise e
   | Unfinished => Unfinished
   end).
Proof.
  intros Hu Hd Hk. unfold Flow.add_edge. simpl.
  rewrite (bind_run Flow.get _ f f f) by done.
  rewrite (bind_run _ _ f _ ()) by (by apply ensure_run).
  set (f1 := with_endpoint u f) in *.
  rewrite (bind_run Flow.get _ f1 f1 f1) by done.
  rewrite (bind_run _ _ f1 _ ()) by (by apply ensure_run).
  set (f2 := with_endpoint d f1) in *.
  rewrite (bind_run Flow.get _ f2 f2 f2) by done.
  rewrite (bind_run _ _ f2 f2 ()) by (by apply key_check_run).
  rewrite (bind_run Flow.get _ f2 f2 f2) by done.
  rewrite (bind_run (Flow.put _) _ f2 (committed u d key f) ()) by done.
  rewrite (readonly_run (Flow.sorted_tasks None) (committed u d key f))
    by apply readonly_sorted_tasks.
  unfold_M. rewrite (readonly_run (Flow.sorted_tasks None) (committed u d key f))
    by apply readonly_sorted_tasks. simpl.
  by destruct (Flow.sorted_tasks None (committed u d key f)).2.
Qed.

Lemma with_endpoint_names x f : names_ok f → names_ok (with_endpoint x f).
Proof.
  intros Hn. unfold with_endpoint. case_decide; [done|].
  unfold names_ok. simpl. by apply map_Forall_insert_2.
Qed.

Lemma with_endpoint_lookup x f n :
  is_Some (Flow.tasks f !! n) → is_Some (Flow.tasks (with_endpoint x f) !! n).
Proof.
  intros Hs. unfold with_endpoint. case_decide; [done|]. simpl.
  destruct (decide (Task.name x = n)) as [->|Hne].
  - rewrite lookup_insert_eq. eauto.
  - by rewrite lookup_insert_ne.
Qed.

Lemma with_endpoint_present x f :
  names_ok f → Flow.tasks (with_endpoint x f) !! Task.name x = Some x.
Proof.
  intros Hn. unfold with_endpoint. case_decide as Hin; simpl.
  - apply elem_of_values in Hin as [k Hk].
    by rewrite <- (Hn _ _ Hk) in Hk.
  - apply lookup_insert_eq.
Qed.

Lemma with_endpoint_edges x f :
  Flow.edges (with_endpoint x f) = Flow.edges f.
Proof. unfold with_endpoint. by case_decide. Qed.

Lemma with_endpoint_endpoints x f :
  endpoints_ok f → endpoints_ok (with_endpoint x f).
Proof.
  intros He e Hin. rewrite with_endpoint_edges in Hin.
  destruct (He e Hin). split; by apply with_endpoint_lookup.
Qed.

Lemma committed_edges u d key f :
  Flow.edges (committed u d key f)
  = Flow.edges f ∪ {[Edge.mk (Task.name u) (Task.name d) key]}.
Proof. unfold committed. simpl. by rewrite !with_endpoint_edges. Qed.

Lemma committed_names u d key f : names_ok f → names_ok (committed u d key f).
Proof. intros Hn. unfold committed. by do 2 apply with_endpoint_names. Qed.

Lemma committed_endpoints u d key f :
  names_ok f → endpoints_ok f → endpoints_ok (committed u d key f).
Proof.
  intros Hn He e Hin. rewrite committed_edges in Hin.
  unfold committed. simpl.
  apply elem_of_union in Hin as [Hin| ->%elem_of_singleton].
  - destruct (He e Hin). split; by do 2 apply with_endpoint_lookup.
  - simpl. split.
    + apply with_endpoint_lookup. rewrite with_endpoint_present; eauto.
    + rewrite with_endpoint_present; eauto using with_endpoint_names.
Qed.

End mutation.

(** C2, as the code has it.  When the endpoint and duplicate-key checks of
    [add_edge] pass and the new edge closes a cycle, the call raises the
    cycle error, and the object it leaves behind holds the endpoints and the
    new edge: the edge set is the old one with the edge added. *)
Theorem add_edge_cycle_is_committed `{SetOrder} (f : Flow.t) (u d : Task.t)
    (key : option string) :
  names_ok f → endpoints_ok f →
  addable u f → addable d (with_endpoint u f) →
  key_free (Task.name d) key (with_endpoint d (with_endpoint u f)) →
  ¬ acyclic (committed u d key f) →
  Flow.add_edge u d key f = (committed u d key f, Raise CycleError)
  ∧ Flow.edges (committed u d key f)
    = Flow.edges f ∪ {[Edge.mk (Task.name u) (Task.name d) key]}
  ∧ is_Some (Flow.tasks (committed u d key f) !! Task.name u)
  ∧ is_Some (Flow.tasks (committed u d key f) !! Task.name d).
Proof.
  intros Hn He Hu Hd Hk Hcyc.
  pose proof (committed_names u d key f Hn) as Hn'.
  pose proof (committed_endpoints u d key f Hn He) as He'.
  split_and!.
  - rewrite add_edge_run by done.
    by destruct (sorted_tasks_all (committed u d key f) He' Hn')
      as [(l & _ & _ & _ & ?)|[-> _]].
  - apply committed_edges.
  - apply (He' (Edge.mk (Task.name u) (Task.name d) key)).
    rewrite committed_edges. set_solver.
  - apply (He' (Edge.mk (Task.name u) (Task.name d) key)).
    rewrite committed_edges. set_solver.
Qed.

(** ** The duplicate-key invariant *)

Section keys.
Context `{SetOrder}.

Lemma preserves_ret P {A} (a : A) : preserves P (Flow.ret a).
Proof. by intros f. Qed.

Lemma preserves_bind P {A B} (m : Flow.M A) (k : A → Flow.M B) :
  preserves P m → (∀ a, preserves P (k a)) → preserves P (m ≫= k).
Proof.
  intros Hm Hk f Hf. unfold_M. specialize (Hm f Hf).
  destruct (m f) as [f' [a| |]]; simpl in *; [by apply Hk|done..].
Qed.

Lemma preserves_for_each P {A S} (l : list A) (body : S → A → Flow.M S) s :
  (∀ s x, preserves P (body s x)) → preserves P (Flow.for_each l body s).
Proof.
  intros Hb. revert s. induction l as [|x l IH]; intros s; simpl.
  - apply preserves_ret.
  - apply preserves_bind; [apply Hb | intros; apply IH].
Qed.

Lemma preserves_readonly P {A} (m : Flow.M A) : readonly m → preserves P m.
Proof. intros Hm f Hf. by rewrite Hm. Qed.

Lemma keys_unique_subseteq f g :
  Flow.edges g ⊆ Flow.edges f → keys_unique f → keys_unique g.
Proof. intros Hsub Hk e1 H1 e2 H2. apply Hk; by apply Hsub. Qed.

Lemma keys_unique_add f g e :
  Flow.edges g = Flow.edges f ∪ {[e]} →
  key_free (Edge.downstream_task e) (Edge.key e) f →
  keys_unique f → keys_unique g.
Proof.
  intros Hg Hfree Hk e1 H1 e2 H2 Hd Hkey Hsome.
  rewrite Hg in H1, H2.
  apply elem_of_union in H1 as [H1| ->%elem_of_singleton];
    apply elem_of_union in H2 as [H2| ->%elem_of_singleton]; try done.
  - by apply Hk.
  - destruct (Edge.key e) as [k|] eqn:Hek; [|congruence].
    destruct (Hfree e1 H1). by split.
  - destruct (Edge.key e) as [k|] eqn:Hek; [|congruence].
    destruct (Hfree e2 H2). split; congruence.
Qed.

Lemma add_task_edges x f : Flow.edges (Flow.add_task x f).1 = Flow.edges f.
Proof. rewrite add_task_run. by case_decide. Qed.

(** The two outcomes of bringing an endpoint into the flow. *)
Lemma ensure_any x f :
  (if decide (x ∈ Flow.values f) then Flow.ret () else Flow.add_task x) f
  = (with_endpoint x f, Return ())
  ∨ (if decide (x ∈ Flow.values f) then Flow.ret () else Flow.add_task x) f
    = (f, Raise DuplicateSlugError).
Proof.
  unfold with_endpoint. case_decide; [by left|].
  rewrite add_task_run. case_decide; [by right|by left].
Qed.

(** The two outcomes of the duplicate-key check. *)
Lemma key_check_any d key f :
  ((match key with
    | Some _ =>
        match filter (λ e, Edge.downstream_task e = d ∧ Edge.key e = key)
                (iter (Flow.edges f)) with
        | [] => Flow.ret ()
        | _ :: _ => Flow.raise (ValueError EdgeKeyAlreadyExists)
        end
    | None => Flow.ret ()
    end) f = (f, Return ()) ∧ key_free d key f)
  ∨ (match key with
     | Some _ =>
         match filter (λ e, Edge.downstream_task e = d ∧ Edge.key e = key)
                 (iter (Flow.edges f)) with
         | [] => Flow.ret ()
         | _ :: _ => Flow.raise (ValueError EdgeKeyAlreadyExists)
         end
     | None => Flow.ret ()
     end) f = (f, Raise DuplicateKeyError).
Proof.
  destruct key as [k|]; [|by left].
  destruct (filter _ _) as [|e l] eqn:Hf; [left|by right].
  split; [done|]. intros e He [Hd Hk].
  assert (e ∈ filter (λ e, Edge.downstream_task e = d ∧ Edge.key e = Some k)
                (iter (Flow.edges f))) as Hin.
  { apply list_elem_of_filter. split; [done|]. by apply elem_of_iter. }
  rewrite Hf in Hin. by apply elem_of_nil in Hin.
Qed.

(** Whatever its outcome, [add_edge] leaves the edge set as it was or adds
    the one edge, and adds it only after the key check has passed. *)
Lemma add_edge_edges u d key f :
  Flow.edges (Flow.add_edge u d key f).1 = Flow.edges f
  ∨ (key_free (Task.name d) key f
     ∧ Flow.edges (Flow.add_edge u d key f).1
       = Flow.edges f ∪ {[Edge.mk (Task.name u) (Task.name d) key]}).
Proof.
  unfold Flow.add_edge. simpl.
  rewrite (bind_run Flow.get _ f f f) by done.
  destruct (ensure_any u f) as [Hu|Hu];
    [rewrite (bind_run _ _ _ _ _ Hu)|rewrite (bind_raise _ _ _ _ _ Hu); by left].
  set (f1 := with_endpoint u f) in *.
  rewrite (bind_run Flow.get _ f1 f1 f1) by done.
  destruct (ensure_any d f1) as [Hd|Hd];
    [rewrite (bind_run _ _ _ _ _ Hd)
    |rewrite (bind_raise _ _ _ _ _ Hd); left; apply with_endpoint_edges].
  set (f2 := with_endpoint d f1) in *.
  assert (Flow.edges f2 = Flow.edges f) as Hf2
    by (unfold f2, f1; by rewrite !with_endpoint_edges).
  rewrite (bind_run Flow.get _ f2 f2 f2) by done.
  destruct (key_check_any (Task.name d) key f2) as [[Hk Hfree]|Hk];
    [rewrite (bind_run _ _ _ _ _ Hk)|rewrite (bind_raise _ _ _ _ _ Hk); by left].
  rewrite (bind_run Flow.get _ f2 f2 f2) by done.
  rewrite (bind_run (Flow.put _) _ f2 (committed u d key f) ()) by done.
  right. split.
  - unfold key_free in *. destruct key; [|done]. by rewrite <- Hf2.
  - rewrite <- committed_edges. f_equal.
    apply readonly_bind; [apply readonly_sorted_tasks|intros; apply readonly_ret].
Qed.

Lemma preserves_add_task x : preserves keys_unique (Flow.add_task x).
Proof.
  intros f Hk. apply (keys_unique_subseteq f); [|done].
  by rewrite add_task_edges.
Qed.

Lemma preserves_add_edge u d key : preserves keys_unique (Flow.add_edge u d key).
Proof.
  intros f Hk. destruct (add_edge_edges u d key f) as [Heq|[Hfree Heq]].
  - apply (keys_unique_subseteq f); [|done]. by rewrite Heq.
  - by apply (keys_unique_add f _ _ Heq).
Qed.

Lemma preserves_set_dependencies x us ds rs :
  preserves keys_unique (Flow.set_dependencies x us ds rs).
Proof.
  unfold Flow.set_dependencies.
  repeat first
    [ apply preserves_add_edge
    | apply preserves_add_task
    | apply preserves_ret
    | apply preserves_readonly, readonly_get
    | apply preserves_for_each; intros ? ?
    | progress case_decide
    | apply preserves_bind; [|intros ?] ].
Qed.

(** The edges that [sub_flow] copies: those with both endpoints among the
    task names of the new flow. *)
Lemma copy_edges_spec (l : list Edge.t) sub :
  let r := foldl
             (λ sub e,
                if decide (Edge.upstream_task e ∈ dom (Flow.tasks sub)
                           ∧ Edge.downstream_task e ∈ dom (Flow.tasks sub))
                then Flow.set_edges (Flow.edges sub ∪ {[e]}) sub
                else sub)
             sub l in
  Flow.tasks r = Flow.tasks sub
  ∧ ∀ e, e ∈ Flow.edges r ↔
         e ∈ Flow.edges sub
         ∨ (e ∈ l ∧ Edge.upstream_task e ∈ dom (Flow.tasks sub)
                  ∧ Edge.downstream_task e ∈ dom (Flow.tasks sub)).
Proof.
  revert sub. induction l as [|e0 l IH]; intros sub; simpl.
  { split; [done|]. intros e. rewrite elem_of_nil. tauto. }
  case_decide as Hd.
  - destruct (IH (Flow.set_edges (Flow.edges sub ∪ {[e0]}) sub)) as [Ht He].
    simpl in *. split; [done|]. intros e. rewrite He, elem_of_cons.
    rewrite elem_of_union, elem_of_singleton. naive_solver.
  - destruct (IH sub) as [Ht He]. split; [done|].
    intros e. rewrite He, elem_of_cons. naive_solver.
Qed.

(** [sub_flow] leaves the flow alone, and the flow it returns has no edge
    that the flow does not have. *)
Lemma sub_flow_edges roots f sub :
  (Flow.sub_flow roots f).2 = Return sub → Flow.edges sub ⊆ Flow.edges f.
Proof.
  unfold Flow.sub_flow. unfold_M. simpl.
  destruct (Flow.sorted_tasks roots f) as [f' [sorted| |]] eqn:Hs; simpl; try done.
  unfold Flow.on_object.
  destruct (Flow.for_each sorted _ () _) as [sub1 [[]| |]] eqn:Hadd; simpl; try done.
  intros [= <-]. intros e He.
  apply copy_edges_spec in He as [He|[He%elem_of_iter _]].
  - assert (Flow.edges sub1 = ∅) as Hemp; [|set_solver].
    assert (preserves (λ g, Flow.edges g = ∅)
              (Flow.for_each sorted (λ _ x, Flow.add_task x) ())) as Hp.
    { apply preserves_for_each. intros _ x g Hg. by rewrite add_task_edges. }
    specialize (Hp (Flow.set_edges ∅ (Flow.set_tasks ∅ f)) eq_refl).
    pose proof (f_equal fst Hadd) as Hfst. simpl in Hfst.
    rewrite <- Hfst. exact Hp.
  - assert (f' = f) as ->; [|done].
    pose proof (readonly_sorted_tasks roots f) as Hr. by rewrite Hs in Hr.
Qed.

Lemma readonly_sub_flow roots : readonly (Flow.sub_flow roots).
Proof.
  unfold Flow.sub_flow.
  apply readonly_bind; [apply readonly_get|intros self].
  apply readonly_bind; [apply readonly_sorted_tasks|intros sorted].
  apply readonly_bind; [apply readonly_on_object|intros r].
  apply readonly_ret.
Qed.

End keys.

(** C7, as the code has it.  A new flow has no two edges into the same task
    with the same non-null key, and [add_task], [add_edge],
    [set_dependencies] and [sub_flow] keep it so, whatever their outcome
    (also for the flow that [sub_flow] returns).  When an edge into [d] with
    key [k] exists, a call of [add_edge] into [d] with key [k] whose
    endpoints are in the flow or are accepted by [add_task] raises the
    duplicate-key error. *)
Theorem duplicate_key_invariant `{SetOrder} (f : Flow.t) :
  keys_unique f →
  (∀ name version project schedule concurrent_runs cluster description f0,
     Flow.init name version project schedule concurrent_runs cluster description
     = Return f0 → keys_unique f0)
  ∧ (∀ x, keys_unique (Flow.add_task x f).1)
  ∧ (∀ u d key, keys_unique (Flow.add_edge u d key f).1)
  ∧ (∀ x us ds rs, keys_unique (Flow.set_dependencies x us ds rs f).1)
  ∧ (∀ roots, keys_unique (Flow.sub_flow roots f).1
              ∧ ∀ sub, (Flow.sub_flow roots f).2 = Return sub → keys_unique sub)
  ∧ (∀ u d k e,
       e ∈ Flow.edges f → Edge.downstream_task e = Task.name d →
       Edge.key e = Some k →
       addable u f → addable d (with_endpoint u f) →
       Flow.add_edge u d (Some k) f
       = (with_endpoint d (with_endpoint u f), Raise DuplicateKeyError)).
Proof.
  intros Hk. split_and!.
  - intros ??????? f0. unfold Flow.init. case_decide; [done|].
    intros [= <-]. intros e1 H1. simpl in H1. set_solver.
  - intros x. by apply preserves_add_task.
  - intros u d key. by apply preserves_add_edge.
  - intros x us ds rs. by apply preserves_set_dependencies.
  - intros roots. split.
    + by rewrite readonly_sub_flow.
    + intros sub Hsub. apply (keys_unique_subseteq f); [|done].
      by apply (sub_flow_edges roots).
  - intros u d k e He Hd Hek Hu Hdd. unfold Flow.add_edge. simpl.
    rewrite (bind_run Flow.get _ f f f) by done.
    rewrite (bind_run _ _ f _ ()) by (by apply ensure_run).
    set (f1 := with_endpoint u f) in *.
    rewrite (bind_run Flow.get _ f1 f1 f1) by done.
    rewrite (bind_run _ _ f1 _ ()) by (by apply ensure_run).
    set (f2 := with_endpoint d f1) in *.
    rewrite (bind_run Flow.get _ f2 f2 f2) by done.
    apply bind_raise. apply (key_check_raise _ _ e); [|done..].
    unfold f2, f1. by rewrite !with_endpoint_edges.
Qed.

(** ** The downstream closure and sub-flows *)

Section closure.
Context `{SetOrder} (f : Flow.t) (He : endpoints_ok f).

Lemma downs_values n x : x ∈ downs f n → x ∈ Flow.values f.
Proof. intros (e & _ & _ & Hx)%elem_of_downs. apply elem_of_values. eauto. Qed.

Lemma round_spec l T seen :
  let r := foldl (expand_pure f) (T, seen) l in
  r.2 = seen ∪ list_to_set l
  ∧ ∀ y, y ∈ r.1 ↔ y ∈ T ∨ ∃ x, x ∈ l ∧ y ∈ downs f (Task.name x).
Proof.
  revert T seen. induction l as [|x l IH]; intros T seen; simpl.
  { split; [set_solver|]. intros y. setoid_rewrite elem_of_nil. naive_solver. }
  destruct (IH (T ∪ downs f (Task.name x)) (seen ∪ {[x]})) as [Hs Ht].
  unfold expand_pure at 2 4. simpl. split; [set_solver|].
  intros y. rewrite Ht, elem_of_union. setoid_rewrite elem_of_cons.
  naive_solver.
Qed.

Lemma comprehension_roots roots :
  roots_ok f roots →
  Flow.comprehension
    (λ r, match r with inl s => Flow.get_task s | inr x => Flow.ret x end)
    roots f
  = (f, Return (omap (root_task f) roots)).
Proof.
  induction 1 as [|r roots Hr _ IH]; simpl; [done|].
  unfold_M. destruct r as [s|x]; simpl.
  - destruct Hr as [x Hx]. rewrite get_task_run, Hx.
    fold (@Flow.bind). unfold_M. by rewrite IH.
  - fold (@Flow.bind). unfold_M. by rewrite IH.
Qed.

Context (R : gset Task.t).

(** The invariant of [while seen != tasks]. *)
Lemma closure_loop_spec n T seen :
  R ⊆ T → seen ⊆ T → T ⊆ R ∪ list_to_set (Flow.values f) →
  (∀ x, x ∈ T → reach f R x) →
  (∀ x, x ∈ seen → downs f (Task.name x) ⊆ T) →
  size (R ∪ list_to_set (Flow.values f)) - size seen < n →
  ∃ C, Flow.closure_loop n T seen f = (f, Return C)
       ∧ ∀ x, x ∈ C ↔ reach f R x.
Proof.
  revert T seen. induction n as [|n IH]; intros T seen HR Hst HU Hreach Hclosed Hsz;
    [lia|].
  simpl. case_decide as Heq.
  { subst. exists T. split; [done|]. intros x. split; [apply Hreach|].
    induction 1 as [x Hx|u e x _ IHu Hin Hup Hd]; [by apply HR|].
    apply (Hclosed u IHu). apply elem_of_downs. eauto. }
  unfold_M. rewrite round_run by done.
  destruct (round_spec (iter (T ∖ seen)) T seen) as [Hs Ht].
  destruct (foldl _ _ _) as [T' seen'] eqn:Hr. simpl in *.
  assert (seen' = T) as ->.
  { rewrite Hs, list_to_set_iter. apply set_eq. intros x.
    destruct (decide (x ∈ seen)); set_solver. }
  apply IH.
  - intros x Hx. apply Ht. left. by apply HR.
  - intros x Hx. apply Ht. by left.
  - intros x [Hx|(u & _ & Hx)]%Ht; [by apply HU|].
    apply elem_of_union_r, elem_of_list_to_set. by eapply downs_values.
  - intros x [Hx|(u & [Hu _]%elem_of_iter%elem_of_difference & Hx)]%Ht;
      [by apply Hreach|].
    apply elem_of_downs in Hx as (e & Hin & Hup & Hd).
    by apply (reach_step f R u e x); [apply Hreach|..].
  - intros x Hx y Hy. apply Ht.
    destruct (decide (x ∈ seen)) as [Hseen|Hseen].
    + left. by apply (Hclosed x).
    + right. exists x. split; [|done]. apply elem_of_iter. set_solver.
  - assert (seen ⊂ T) as Hlt%subset_size by set_solver.
    assert (size T ≤ size (R ∪ list_to_set (Flow.values f)))
      by by apply subseteq_size.
    lia.
Qed.

End closure.

Section sub_flow.
Context `{SetOrder}.

Lemma elem_of_values_store g x y :
  y ∈ Flow.values (store_task g x) → y = x ∨ y ∈ Flow.values g.
Proof.
  intros [k Hk]%elem_of_values. unfold store_task in Hk. simpl in Hk.
  destruct (decide (Task.name x = k)) as [<-|Hne].
  - rewrite lookup_insert_eq in Hk. left. congruence.
  - rewrite lookup_insert_ne in Hk by done. right. apply elem_of_values. eauto.
Qed.

(** A run of [add_task] over tasks with fresh, pairwise different slugs. *)
Lemma add_all_run (l : list Task.t) g :
  NoDup (Task.slug <$> l) →
  (∀ x, x ∈ l → Task.slug x ∉ Task.slug <$> Flow.values g) →
  Flow.for_each l (λ _ x, Flow.add_task x) () g
  = (foldl store_task g l, Return ()).
Proof.
  revert g. induction l as [|x l IH]; intros g Hnd Hfresh; simpl; [done|].
  apply NoDup_cons in Hnd as [Hx Hnd].
  unfold_M. rewrite add_task_run. case_decide as Hin.
  { destruct (Hfresh x); [by left|done]. }
  apply IH; [done|]. intros y Hy [z [Hz Hzin]]%list_elem_of_fmap.
  apply elem_of_values_store in Hzin as [->|Hzin].
  - apply Hx. rewrite <- Hz. apply list_elem_of_fmap. eauto.
  - apply (Hfresh y); [by right|]. apply list_elem_of_fmap. eauto.
Qed.

Lemma store_all_edges (l : list Task.t) g :
  Flow.edges (foldl store_task g l) = Flow.edges g.
Proof. revert g. induction l as [|x l IH]; intros g; simpl; [done|]. by rewrite IH. Qed.

Lemma store_all_lookup (l : list Task.t) g n y :
  NoDup (Task.name <$> l) →
  Flow.tasks (foldl store_task g l) !! n = Some y ↔
  (y ∈ l ∧ Task.name y = n) ∨ (Flow.tasks g !! n = Some y ∧ n ∉ Task.name <$> l).
Proof.
  revert g. induction l as [|x l IH]; intros g Hnd; simpl.
  { rewrite elem_of_nil. set_solver. }
  apply NoDup_cons in Hnd as [Hx Hnd]. rewrite (IH _ Hnd).
  unfold store_task at 1. simpl. rewrite elem_of_cons, not_elem_of_cons.
  destruct (decide (Task.name x = n)) as [<-|Hne].
  - rewrite lookup_insert_eq. split.
    + intros [[Hy Hn]|[[= <-] _]]; [|by left; split; [left|]].
      left. split; [by right|done].
    + intros [[[->|Hy] Hn]|[_ [? _]]]; [by right| |done].
      destruct Hx. rewrite <- Hn. apply list_elem_of_fmap. eauto.
  - rewrite lookup_insert_ne by done. split.
    + intros [[Hy Hn]|[Hg Hn]]; [left; split; [by right|done]|by right].
    + intros [[[->|Hy] Hn]|[Hg [_ Hn]]]; [done|by left|by right].
Qed.

Context (f : Flow.t) (Hn : names_ok f) (He : endpoints_ok f).

Lemma values_slug_inj x y :
  slugs_unique f →
  x ∈ Flow.values f → y ∈ Flow.values f → Task.slug x = Task.slug y → x = y.
Proof.
  intros Hs [k Hk]%elem_of_values [k' Hk']%elem_of_values Heq.
  pose proof (Hs _ _ Hk _ _ Hk' Heq) as Hkk. simpl in Hkk. congruence.
Qed.

Lemma root_set_values roots x :
  roots_ok f roots → x ∈ root_set f roots → x ∈ Flow.values f.
Proof.
  intros Hr (r & Hin & Hx)%elem_of_list_to_set%list_elem_of_omap.
  unfold roots_ok in Hr. rewrite Forall_forall in Hr. specialize (Hr r Hin).
  destruct r as [s|y]; simpl in *.
  - apply elem_of_values. eauto.
  - congruence.
Qed.

Lemma reach_values (R : gset Task.t) x :
  (∀ y, y ∈ R → y ∈ Flow.values f) → reach f R x → x ∈ Flow.values f.
Proof.
  intros HR. induction 1 as [x Hx|u e x _ _ _ _ Hd]; [by apply HR|].
  apply elem_of_values. eauto.
Qed.

(** [sorted_tasks(root_tasks=roots)] on an acyclic flow: the tasks reachable
    downstream from the roots, each once. *)
Lemma sorted_tasks_roots roots :
  acyclic f → roots_ok f roots →
  ∃ l, Flow.sorted_tasks (Some roots) f = (f, Return l)
       ∧ NoDup l ∧ ∀ x, x ∈ l ↔ reach f (root_set f roots) x.
Proof.
  intros Hac Hr. unfold Flow.sorted_tasks.
  set (R := root_set f roots).
  destruct (closure_loop_spec f He R (S (size (R ∪ list_to_set (Flow.values f)))) R ∅)
    as (C & HC & HCreach); [done|set_solver|set_solver| | |lia|].
  { intros x Hx. by apply reach_root. }
  { set_solver. }
  destruct (sort_loop_spec f C He (S (size C)) C []) as
    [(l & Hl & [_ Hnd Hel _])|[_ (T & HT & Hb)]];
    [lia|apply sort_inv_init| |].
  - exists l. split_and!; [|done|].
    + erewrite bind_run; [apply Hl|].
      erewrite bind_run; [|by apply comprehension_roots].
      erewrite bind_run; [|done]. apply HC.
    + intros x. rewrite Hel, <- HCreach. set_solver.
  - by destruct (blocked_cycle f Hn T).
Qed.

(** The flow that [sub_flow] returns. *)
Lemma sub_flow_run roots l :
  slugs_unique f →
  Flow.sorted_tasks (Some roots) f = (f, Return l) →
  NoDup l → (∀ x, x ∈ l → x ∈ Flow.values f) →
  ∃ sub, Flow.sub_flow (Some roots) f = (f, Return sub)
         ∧ (∀ x, x ∈ Flow.values sub ↔ x ∈ l)
         ∧ ∀ e, e ∈ Flow.edges sub ↔
                e ∈ Flow.edges f
                ∧ (∃ u, u ∈ l ∧ Task.name u = Edge.upstream_task e)
                ∧ (∃ d, d ∈ l ∧ Task.name d = Edge.downstream_task e).
Proof.
  intros Hs Hsorted Hnd Hval.
  set (sub0 := Flow.set_edges ∅ (Flow.set_tasks ∅ f)).
  set (sub1 := foldl store_task sub0 l).
  assert (NoDup (Task.name <$> l)) as Hnames.
  { apply NoDup_fmap_2_strong; [|done].
    intros x y Hx Hy. apply (values_name_inj f Hn); by apply Hval. }
  assert (∀ n y, Flow.tasks sub1 !! n = Some y ↔ y ∈ l ∧ Task.name y = n) as Hlook.
  { intros n y. unfold sub1. rewrite store_all_lookup by done.
    unfold sub0. simpl. rewrite lookup_empty. naive_solver. }
  assert (∀ n, n ∈ dom (Flow.tasks sub1) ↔ ∃ y, y ∈ l ∧ Task.name y = n) as Hdom.
  { intros n. rewrite elem_of_dom. unfold is_Some.
    by setoid_rewrite Hlook. }
  destruct (copy_edges_spec (iter (Flow.edges f)) sub1) as [Ht Hedges].
  eexists. split_and!.
  - unfold Flow.sub_flow.
    erewrite bind_run; [|done].
    erewrite bind_run; [|apply Hsorted].
    erewrite bind_run; [done|].
    unfold Flow.on_object. fold sub0. rewrite add_all_run; [done| |].
    + apply NoDup_fmap_2_strong; [|done].
      intros x y Hx Hy. apply values_slug_inj; by auto.
    + intros x _ [y [_ Hy]]%list_elem_of_fmap.
      apply elem_of_values in Hy as [k Hk]. unfold sub0 in Hk. simpl in Hk.
      by rewrite lookup_empty in Hk.
  - intros x. simpl. fold sub0 sub1. rewrite elem_of_values, Ht.
    setoid_rewrite Hlook. naive_solver.
  - intros e. simpl. fold sub0 sub1. rewrite Hedges, !Hdom, elem_of_iter.
    unfold sub1. rewrite store_all_edges. unfold sub0. simpl.
    rewrite elem_of_empty. naive_solver.
Qed.

End sub_flow.

(** C8. On an acyclic flow that satisfies the name, endpoint and slug
    invariants, and for roots that are tasks of the flow:
    [sorted_tasks(root_tasks=roots)] returns, each once, exactly the tasks
    reachable downstream from the roots, and [sub_flow(root_tasks=roots)]
    returns a flow whose tasks are exactly those tasks and whose edges are
    exactly the edges of the flow with both endpoints among them; the flow
    itself is unchanged. *)
Theorem sub_flow_is_downstream_closure `{SetOrder} (f : Flow.t)
    (roots : list (string + Task.t)) :
  names_ok f → endpoints_ok f → slugs_unique f → acyclic f →
  roots_ok f roots →
  ∃ l sub,
    Flow.sorted_tasks (Some roots) f = (f, Return l)
    ∧ NoDup l
    ∧ (∀ x, x ∈ l ↔ reach f (root_set f roots) x)
    ∧ Flow.sub_flow (Some roots) f = (f, Return sub)
    ∧ (∀ x, x ∈ Flow.values sub ↔ reach f (root_set f roots) x)
    ∧ (∀ e, e ∈ Flow.edges sub ↔
            e ∈ Flow.edges f
            ∧ (∃ u, reach f (root_set f roots) u
                    ∧ Task.name u = Edge.upstream_task e)
            ∧ (∃ d, reach f (root_set f roots) d
                    ∧ Task.name d = Edge.downstream_task e)).
Proof.
  intros Hn He Hs Hac Hr.
  destruct (sorted_tasks_roots f Hn He roots Hac Hr) as (l & Hl & Hnd & Hel).
  destruct (sub_flow_run f Hn roots l Hs Hl Hnd) as (sub & Hsub & Hv & Hedges).
  { intros x Hx%Hel. apply (reach_values f (root_set f roots)); [|done].
    intros y. by apply root_set_values. }
  exists l, sub. split_and!; try done.
  - intros x. by rewrite Hv.
  - intros e. rewrite Hedges. by setoid_rewrite Hel.
Qed.

(** ** Parameters *)

Section parameters.
Context `{SetOrder}.

Lemma parameters_fold_lookup (b : bool) (l : list Task.t)
    (acc : gmap string (bool * option Z)) n v :
  NoDup (Task.name <$> l) →
  foldl (λ (acc : gmap string (bool * option Z)) x,
           if Task.is_parameter x && (if b then Task.required x else true)
           then <[Task.name x := (Task.required x, Task.default x)]> acc
           else acc) acc l !! n = Some v ↔
  (∃ x, x ∈ l ∧ Task.name x = n ∧ parameter_entry b x = Some v)
  ∨ (acc !! n = Some v
     ∧ ∀ x, x ∈ l → Task.name x = n → parameter_entry b x = None).
Proof.
  revert acc. induction l as [|x l IH]; intros acc Hnd; simpl.
  { setoid_rewrite elem_of_nil. naive_solver. }
  apply NoDup_cons in Hnd as [Hx Hnd]. rewrite (IH _ Hnd).
  setoid_rewrite elem_of_cons. unfold parameter_entry at 3 4.
  assert (∀ y, y ∈ l → Task.name y ≠ Task.name x) as Hne.
  { intros y Hy Heq. apply Hx. rewrite <- Heq. apply list_elem_of_fmap. eauto. }
  destruct (Task.is_parameter x && _) eqn:Hc.
  - destruct (decide (Task.name x = n)) as [<-|Hn].
    + rewrite lookup_insert_eq. split.
      * intros [(y & Hy & Hyn & _)|[[= <-] _]]; [by destruct (Hne y)|].
        left. exists x. unfold parameter_entry. rewrite Hc. eauto.
      * intros [(y & [->|Hy] & Hyn & He)|[_ Hnone]].
        -- unfold parameter_entry in He. rewrite Hc in He. right.
           split; [done|]. intros z Hz Hzn. by destruct (Hne z).
        -- by destruct (Hne y).
        -- specialize (Hnone x (or_introl eq_refl) eq_refl).
           unfold parameter_entry in Hnone. by rewrite Hc in Hnone.
    + rewrite lookup_insert_ne by done. split.
      * intros [(y & Hy & Hyn & He)|[Ha Hnone]]; [left; eauto 10|].
        right. split; [done|]. intros z [->|Hz] Hzn; [done|by apply Hnone].
      * intros [(y & [->|Hy] & Hyn & He)|[Ha Hnone]]; [done|left; eauto|].
        right. split; [done|]. intros z Hz. apply Hnone. by right.
  - split.
    + intros [(y & Hy & Hyn & He)|[Ha Hnone]]; [left; eauto 10|].
      right. split; [done|]. intros z [->|Hz] Hzn; [|by apply Hnone].
      unfold parameter_entry. by rewrite Hc.
    + intros [(y & [->|Hy] & Hyn & He)|[Ha Hnone]].
      * unfold parameter_entry in He. by rewrite Hc in He.
      * left. eauto.
      * right. split; [done|]. intros z Hz. apply Hnone. by right.
Qed.

Lemma values_lookup f n x :
  names_ok f → x ∈ Flow.values f ∧ Task.name x = n ↔ Flow.tasks f !! n = Some x.
Proof.
  intros Hn. rewrite elem_of_values. split.
  - intros [[k Hk] <-]. by rewrite (Hn _ _ Hk).
  - intros Hx. split; [eauto|]. apply (Hn _ _ Hx).
Qed.

(** [parameters] returns the entry of every task that has one, under the
    name of the task. *)
Lemma parameters_run b f :
  names_ok f →
  ∃ m, Flow.parameters b f = (f, Return m)
       ∧ ∀ n, m !! n = Flow.tasks f !! n ≫= parameter_entry b.
Proof.
  intros Hn. eexists. split; [reflexivity|]. intros n.
  apply option_eq. intros v.
  rewrite parameters_fold_lookup.
  - rewrite lookup_empty. split.
    + intros [(x & Hx & Hxn & He)|[? _]]; [|done].
      assert (Flow.tasks f !! n = Some x) as -> by by apply values_lookup.
      done.
    + intros (x & Hx & He)%bind_Some. left. exists x.
      by apply values_lookup in Hx as [? ?].
  - apply NoDup_fmap_2_strong; [|by apply NoDup_values].
    by apply values_name_inj.
Qed.

End parameters.

(** ** The round trip through [serialize] and [safe_deserialize] *)

Lemma for_each_fmap {A B S} (h : A → B) (l : list A) (body : S → B → Flow.M S)
    (s : S) (g : Flow.t) :
  Flow.for_each (h <$> l) body s g = Flow.for_each l (λ s x, body s (h x)) s g.
Proof.
  revert s g. induction l as [|x l IH]; intros s g; simpl; [done|].
  unfold_M. destruct (body s (h x) g) as [g' [s'| |]]; [apply IH|done..].
Qed.

Lemma set_edges_id (g : Flow.t) : Flow.set_edges (Flow.edges g) g = g.
Proof. by destruct g. Qed.

Lemma acyclic_subseteq (f g : Flow.t) :
  Flow.edges g ⊆ Flow.edges f → acyclic f → acyclic g.
Proof.
  intros Hsub Hac n Hc. apply (Hac n).
  assert (∀ a b, tc (edge_rel g) a b → tc (edge_rel f) a b) as Htc; [|by apply Htc].
  induction 1 as [a b [k Hk]|a b c [k Hk] _ IH].
  - apply tc_once. exists k. by apply Hsub.
  - eapply tc_l; [|done]. exists k. by apply Hsub.
Qed.

Section round_trip.
Context `{SetOrder} `{Flow.Collaborators} (Hc : faithful).
Context (f : Flow.t) (Hn : names_ok f) (Hs : slugs_unique f)
        (He : endpoints_ok f) (Hk : keys_unique f) (Hac : acyclic f).
Context (l : list Task.t) (Hl : l ≡ₚ Flow.values f).
Context (g0 : Flow.t) (Hg0t : Flow.tasks g0 = ∅) (Hg0e : Flow.edges g0 = ∅).

Lemma placeholders_name : Task.name <$> placeholders l = Task.name <$> l.
Proof.
  unfold placeholders. rewrite fmap_imap. apply list_eq. intros i.
  rewrite list_lookup_imap, list_lookup_fmap.
  destruct (l !! i) as [x|]; simpl; [|done]. f_equal. apply Hc.
Qed.

Lemma placeholders_slug : Task.slug <$> placeholders l = Task.slug <$> l.
Proof.
  unfold placeholders. rewrite fmap_imap. apply list_eq. intros i.
  rewrite list_lookup_imap, list_lookup_fmap.
  destruct (l !! i) as [x|]; simpl; [|done]. f_equal. apply Hc.
Qed.

Lemma NoDup_sorted : NoDup l.
Proof. rewrite Hl. by apply NoDup_values. Qed.

Lemma NoDup_sorted_names : NoDup (Task.name <$> l).
Proof.
  apply NoDup_fmap_2_strong; [|apply NoDup_sorted].
  intros x y Hx Hy. rewrite Hl in Hx, Hy. by apply (values_name_inj f).
Qed.

Lemma NoDup_sorted_slugs : NoDup (Task.slug <$> l).
Proof.
  apply NoDup_fmap_2_strong; [|apply NoDup_sorted].
  intros x y Hx Hy. rewrite Hl in Hx, Hy. by apply (values_slug_inj f).
Qed.

(** The tasks of the rebuilt flow: the placeholders, under their names. *)
Lemma rebuilt_lookup n y :
  Flow.tasks (foldl store_task g0 (placeholders l)) !! n = Some y ↔
  y ∈ placeholders l ∧ Task.name y = n.
Proof.
  rewrite store_all_lookup by (rewrite placeholders_name; apply NoDup_sorted_names).
  rewrite Hg0t, lookup_empty. naive_solver.
Qed.

Lemma rebuilt_of_original n x :
  Flow.tasks f !! n = Some x →
  ∃ y, Flow.tasks (foldl store_task g0 (placeholders l)) !! n = Some y
       ∧ Task.name y = Task.name x ∧ Task.slug y = Task.slug x
       ∧ Task.kind_of y = Task.kind_of x.
Proof.
  intros Hx. assert (x ∈ l) as [i Hi]%list_elem_of_lookup.
  { rewrite Hl. apply elem_of_values. eauto. }
  destruct Hc as [Ht _]. destruct (Ht x (i + 1)) as (Hname & Hslug & Hkind).
  eexists. split_and!; [|done..].
  apply rebuilt_lookup. split.
  - unfold placeholders.
    by apply (elem_of_lookup_imap_2
                (λ i x, Flow.Task_safe_deserialize
                          (Flow.with_sort_order (Flow.Task_serialize x) (i + 1)))).
  - rewrite Hname. apply (Hn _ _ Hx).
Qed.

Lemma original_of_rebuilt n y :
  Flow.tasks (foldl store_task g0 (placeholders l)) !! n = Some y →
  ∃ x, Flow.tasks f !! n = Some x
       ∧ Task.name y = Task.name x ∧ Task.slug y = Task.slug x
       ∧ Task.kind_of y = Task.kind_of x.
Proof.
  intros [Hy Hyn]%rebuilt_lookup.
  apply elem_of_lookup_imap_1 in Hy as (i & x & -> & Hi).
  destruct Hc as [Ht _]. destruct (Ht x (i + 1)) as (Hname & Hslug & Hkind).
  exists x. split_and!; [|done..].
  apply values_lookup; [done|]. split; [|congruence].
  rewrite <- Hl. apply list_elem_of_lookup. eauto.
Qed.

Lemma rebuilt_names_ok g :
  Flow.tasks g = Flow.tasks (foldl store_task g0 (placeholders l)) → names_ok g.
Proof. intros Hg n y Hy. rewrite Hg in Hy. by apply rebuilt_lookup in Hy as [_ ?]. Qed.

Lemma rebuilt_endpoints_ok g :
  Flow.tasks g = Flow.tasks (foldl store_task g0 (placeholders l)) →
  Flow.edges g ⊆ Flow.edges f → endpoints_ok g.
Proof.
  intros Hg Hsub e Hin%Hsub. rewrite Hg.
  destruct (He e Hin) as [[u Hu] [d Hd]].
  destruct (rebuilt_of_original _ _ Hu) as (? & ? & _).
  destruct (rebuilt_of_original _ _ Hd) as (? & ? & _). eauto.
Qed.

Lemma with_endpoint_id x g : x ∈ Flow.values g → with_endpoint x g = g.
Proof. intros Hx. unfold with_endpoint. by case_decide. Qed.

(** One edge of the serialized flow, added through [get_task] and
    [add_edge] to the flow that holds the edges [done]. *)
Lemma edge_step (done : list Edge.t) (e : Edge.t) :
  e ∈ Flow.edges f → e ∉ done → (∀ e', e' ∈ done → e' ∈ Flow.edges f) →
  (u ← Flow.get_task (Edge.upstream_task e) ;
   d ← Flow.get_task (Edge.downstream_task e) ;
   Flow.add_edge u d (Edge.key e))
    (Flow.set_edges (list_to_set done) (foldl store_task g0 (placeholders l)))
  = (Flow.set_edges (list_to_set (done ++ [e]))
       (foldl store_task g0 (placeholders l)), Return ()).
Proof.
  intros Hin Hfresh Hdone.
  set (g1 := foldl store_task g0 (placeholders l)).
  set (g := Flow.set_edges (list_to_set done) g1).
  destruct (He e Hin) as [[xu Hxu] [xd Hxd]].
  destruct (rebuilt_of_original _ _ Hxu) as (u & Hu & Hun & _).
  destruct (rebuilt_of_original _ _ Hxd) as (d & Hd & Hdn & _).
  fold g1 in Hu, Hd.
  rewrite (Hn _ _ Hxu) in Hun. rewrite (Hn _ _ Hxd) in Hdn.
  assert (u ∈ Flow.values g) as Huv by (apply elem_of_values; eauto).
  assert (d ∈ Flow.values g) as Hdv by (apply elem_of_values; eauto).
  erewrite bind_run; [|by rewrite get_task_run; simpl; rewrite Hu].
  erewrite bind_run; [|by rewrite get_task_run; simpl; rewrite Hd].
  rewrite add_edge_run; rewrite ?(with_endpoint_id u g) by done;
    rewrite ?(with_endpoint_id d g) by done; [|by left|by left|].
  - assert (committed u d (Edge.key e) g
            = Flow.set_edges (list_to_set (done ++ [e])) g1) as ->.
    { unfold committed. rewrite (with_endpoint_id u g) by done.
      rewrite (with_endpoint_id d g) by done.
      rewrite Hun, Hdn, list_to_set_snoc_L. unfold g. simpl. by destruct e. }
    set (g' := Flow.set_edges (list_to_set (done ++ [e])) g1).
    assert (Flow.edges g' ⊆ Flow.edges f) as Hsub.
    { intros e'. simpl. rewrite elem_of_list_to_set, elem_of_app,
        list_elem_of_singleton. intros [?| ->]; auto. }
    destruct (sorted_tasks_all g') as [(? & -> & _)|[_ Hcyc]]; [| |done|].
    + by apply rebuilt_endpoints_ok.
    + by apply rebuilt_names_ok.
    + destruct Hcyc. by apply (acyclic_subseteq f).
  - unfold key_free. destruct (Edge.key e) as [k|] eqn:Hkey; [|done].
    intros e' He' [Hd' Hk']. simpl in He'. apply elem_of_list_to_set in He'.
    assert (e' = e) as ->; [|done].
    apply Hk; [by apply Hdone|done|congruence|congruence|congruence].
Qed.

Lemma edges_loop (rest done : list Edge.t) :
  NoDup (done ++ rest) → (∀ e, e ∈ done ++ rest → e ∈ Flow.edges f) →
  Flow.for_each rest
    (λ _ edge,
       u ← Flow.get_task (Edge.upstream_task edge) ;
       d ← Flow.get_task (Edge.downstream_task edge) ;
       Flow.add_edge u d (Edge.key edge)) ()
    (Flow.set_edges (list_to_set done) (foldl store_task g0 (placeholders l)))
  = (Flow.set_edges (list_to_set (done ++ rest))
       (foldl store_task g0 (placeholders l)), Return ()).
Proof.
  revert done. induction rest as [|e rest IH]; intros done Hnd Hin; simpl.
  { by rewrite app_nil_r. }
  erewrite bind_run; [|apply edge_step].
  - rewrite (cons_middle e done rest), app_assoc. apply IH.
    + by rewrite <- app_assoc.
    + intros e'. rewrite <- app_assoc. apply Hin.
  - apply Hin. set_solver.
  - apply NoDup_app in Hnd as (_ & Hnd & _). intros Hd. apply (Hnd e Hd). by left.
  - intros e' He'. apply Hin. set_solver.
Qed.

(** The rebuilding part of [safe_deserialize], on the new flow [g0]. *)
Lemma rebuild_run :
  (Flow.for_each
     (imap (λ i x, Flow.with_sort_order (Flow.Task_serialize x) (i + 1)) l)
     (λ _ task, Flow.add_task (Flow.Task_safe_deserialize task)) () ;;
   Flow.for_each (Flow.Edge_serialize <$> iter (Flow.edges f))
     (λ _ edge,
        u ← Flow.get_task (Edge.upstream_task edge) ;
        d ← Flow.get_task (Edge.downstream_task edge) ;
        Flow.add_edge u d (Edge.key edge)) ()) g0
  = (Flow.set_edges (Flow.edges f) (foldl store_task g0 (placeholders l)),
     Return ()).
Proof.
  erewrite bind_run; cycle 1.
  { rewrite <- (for_each_fmap Flow.Task_safe_deserialize _
                  (λ _ x, Flow.add_task x)).
    rewrite fmap_imap. apply (add_all_run (placeholders l)).
    + rewrite placeholders_slug. apply NoDup_sorted_slugs.
    + intros x _ [y [_ Hy]]%list_elem_of_fmap.
      apply elem_of_values in Hy as [k Hy]. by rewrite Hg0t, lookup_empty in Hy. }
  assert (Flow.Edge_serialize <$> iter (Flow.edges f) = iter (Flow.edges f)) as ->.
  { rewrite <- (list_fmap_id (iter (Flow.edges f))) at 2.
    apply list_fmap_ext. intros _ e _. apply Hc. }
  rewrite <- (set_edges_id (foldl store_task g0 (placeholders l))) at 1.
  rewrite store_all_edges, Hg0e.
  change (∅ : gset Edge.t) with (list_to_set [] : gset Edge.t).
  rewrite (edges_loop (iter (Flow.edges f)) []); simpl.
  - by rewrite list_to_set_iter.
  - apply NoDup_iter.
  - by intros e ?%elem_of_iter.
Qed.

End round_trip.

Lemma slug_run `{Flow.Collaborators} (f : Flow.t) :
  ∃ slug, Flow.slug f = (f, Return slug).
Proof.
  unfold Flow.slug. unfold_M.
  destruct (Flow.version f) as [[|]|]; eexists; reflexivity.
Qed.

Lemma parameter_entry_kind b x y :
  Task.kind_of x = Task.kind_of y → parameter_entry b x = parameter_entry b y.
Proof.
  intros Hxy. unfold parameter_entry, Task.is_parameter, Task.required, Task.default.
  by rewrite Hxy.
Qed.

(** The safe path reads nothing of the ['serialized'] blob, the pickled
    flow object that only [deserialize] loads. *)
Lemma safe_deserialize_blob `{SetOrder} `{Flow.Collaborators}
    (blob : string) (s : Flow.serialized) :
  Flow.safe_deserialize (Flow.set_serialized blob s) = Flow.safe_deserialize s.
Proof. reflexivity. Qed.

(** C6, as the code has it.  Let [f] be a flow with a name, whose tasks are
    stored under their names with pairwise different slugs, whose edges have
    their endpoints in the flow and pairwise different (downstream task,
    non-null key), and are acyclic; and let the task and edge serializers be
    faithful.  Then [serialize] returns, [safe_deserialize] of its result
    returns a flow with the same task names, the same slug under each name,
    the same edge set and the same [parameters()], and [f] is unchanged.
    Neither task logic nor the full path takes part: with any other
    ['serialized'] blob in the record, the only entry that holds the pickled
    flow and its task objects, [safe_deserialize] returns the same flow, and
    every task of that flow is the placeholder that [Task.safe_deserialize]
    builds from one of the task records. *)
Theorem safe_deserialize_round_trip `{SetOrder} `{Flow.Collaborators}
    (f : Flow.t) :
  faithful → Flow.name f ≠ "" →
  names_ok f → slugs_unique f → endpoints_ok f → keys_unique f → acyclic f →
  ∃ s g,
    Flow.serialize f = (f, Return s)
    ∧ Flow.safe_deserialize s = Return g
    ∧ dom (Flow.tasks g) = dom (Flow.tasks f)
    ∧ (∀ n x, Flow.tasks f !! n = Some x →
         ∃ y, Flow.tasks g !! n = Some y
              ∧ Task.name y = Task.name x ∧ Task.slug y = Task.slug x)
    ∧ Flow.edges g = Flow.edges f
    ∧ (Flow.parameters false g).2 = (Flow.parameters false f).2
    ∧ (Flow.parameters false f).2 = Return (Flow.s_parameters s)
    ∧ (∀ blob, Flow.safe_deserialize (Flow.set_serialized blob s) = Return g)
    ∧ (∀ n y, Flow.tasks g !! n = Some y →
         ∃ r, r ∈ Flow.s_tasks s ∧ y = Flow.Task_safe_deserialize r).
Proof.
  intros Hc Hname Hn Hs He Hk Hac.
  destruct (sorted_tasks_all f He Hn) as [(l & Hsorted & Hl & _)|[_ ?]]; [|done].
  destruct (slug_run f) as [sl Hsl].
  destruct (parameters_run false f Hn) as (m & Hm & Hmlook).
  set (g0 := Flow.mk (Flow.name f) (Flow.version f) (Flow.project f) None
               (Flow.schedules_deserialize (Flow.schedule_serialize (Flow.schedule f)))
               (Flow.concurrent_runs f) None ∅ ∅).
  set (g := Flow.set_edges (Flow.edges f) (foldl store_task g0 (placeholders l))).
  pose proof (rebuild_run Hc f Hn Hs He Hk Hac l Hl g0 eq_refl eq_refl) as Hrebuild.
  assert (names_ok g) as Hng.
  { by apply (rebuilt_names_ok Hc f Hn l Hl g0 eq_refl). }
  eexists _, g. split.
  { unfold Flow.serialize.
    erewrite bind_run; [|done].
    erewrite bind_run; [|apply Hsorted].
    erewrite bind_run; [|apply Hsl].
    erewrite bind_run; [|apply Hm].
    reflexivity. }
  match goal with |- Flow.safe_deserialize ?s = _ ∧ _ =>
    assert (Flow.safe_deserialize s = Return g) as Hsafe
  end.
  { unfold Flow.safe_deserialize, Flow.init. simpl.
    case_decide; [done|]. fold g0. by rewrite Hrebuild. }
  split_and!.
  - exact Hsafe.
  - apply set_eq. intros n. rewrite !elem_of_dom. split; intros [x Hx].
    + destruct (original_of_rebuilt Hc f Hn l Hl g0 eq_refl n x Hx) as (? & ? & _).
      eauto.
    + destruct (rebuilt_of_original Hc f Hn l Hl g0 eq_refl n x Hx) as (? & ? & _).
      eauto.
  - intros n x Hx.
    destruct (rebuilt_of_original Hc f Hn l Hl g0 eq_refl n x Hx)
      as (y & ? & ? & ? & _). eauto.
  - done.
  - destruct (parameters_run false g Hng) as (m' & Hm' & Hm'look).
    rewrite Hm, Hm'. simpl. f_equal. apply map_eq. intros n.
    rewrite Hmlook, Hm'look.
    destruct (Flow.tasks f !! n) as [x|] eqn:Hx.
    + destruct (rebuilt_of_original Hc f Hn l Hl g0 eq_refl n x Hx)
        as (y & Hy & _ & _ & Hkind).
      change (Flow.tasks g) with (Flow.tasks (foldl store_task g0 (placeholders l))).
      rewrite Hy. simpl. by apply parameter_entry_kind.
    + destruct (Flow.tasks g !! n) as [y|] eqn:Hy; [|done].
      destruct (original_of_rebuilt Hc f Hn l Hl g0 eq_refl n y Hy) as (? & ? & _).
      congruence.
  - by rewrite Hm.
  - intros blob. by rewrite safe_deserialize_blob.
  - intros n y Hy.
    change (Flow.tasks g) with (Flow.tasks (foldl store_task g0 (placeholders l)))
      in Hy.
    apply (rebuilt_lookup Hc f Hn l Hl g0 eq_refl) in Hy as [Hy _].
    apply elem_of_lookup_imap_1 in Hy as (i & x & -> & Hi).
    eexists. split; [|done]. simpl.
    by apply (elem_of_lookup_imap_2
                (λ i x, Flow.with_sort_order (Flow.Task_serialize x) (i + 1))).
Qed.

(** ** Flow equality *)

(** C4. Comparing two flows raises [TypeError]: [_comps] calls the builtin
    [tuple] with six arguments, which accepts at most one. *)
Theorem flow_eq_raises_type_error `{SetOrder} (f g : Flow.t) :
  Flow._comps f = (f, Raise (TypeError TupleArity))
  ∧ Flow.__eq__ g f = (f, Raise (TypeError TupleArity)).
Proof. split; reflexivity. Qed.

(** ** The executor *)

Section executor.
Import DaskExecutor.

(** Induction on values, with the hypothesis for every member of a list. *)
Lemma value_rect_list (P : value → Prop) :
  P VNone → (∀ z, P (VInt z)) → (∀ l, Forall P l → P (VList l)) →
  (∀ r, P r → P (VFuture r)) → ∀ v, P v.
Proof.
  intros HN HI HL HF. fix IH 1. intros [ |z|l|r].
  - apply HN.
  - apply HI.
  - apply HL. induction l as [|x l IHl]; constructor; [apply IH|apply IHl].
  - apply HF, IH.
Qed.

Lemma passes_needed_list_le (l : list value) (n : nat) :
  (foldr (λ x m, passes_needed x `max` m) 0 l ≤ n)%nat ↔
  Forall (λ x, (passes_needed x ≤ n)%nat) l.
Proof.
  induction l as [|x l IH]; simpl.
  - split; [constructor|lia].
  - rewrite Forall_cons, <- IH. lia.
Qed.

(** One pass lowers the number of passes still needed by one. *)
Lemma passes_needed_gather (v : value) (n : nat) :
  (passes_needed v ≤ S n)%nat → (passes_needed (gather v) ≤ n)%nat.
Proof.
  revert n. induction v as [ |z|l IH|r IH] using value_rect_list;
    intros n; simpl; try lia.
  intros Hl%passes_needed_list_le. apply passes_needed_list_le.
  rewrite Forall_forall in IH, Hl. apply Forall_forall.
  intros y [x [<- Hx]]%list_elem_of_In%in_map_iff.
  apply list_elem_of_In in Hx. by apply IH, Hl.
Qed.

Lemma resolve_gather v : resolve (gather v) = resolve v.
Proof.
  induction v as [ |z|l IH|r IH] using value_rect_list; simpl; try done.
  f_equal. rewrite List.map_map. apply List.map_ext_in.
  intros x Hx%list_elem_of_In. rewrite Forall_forall in IH. by apply IH.
Qed.

(** A value that needs no pass is its own resolution. *)
Lemma resolve_done v : (passes_needed v ≤ 0)%nat → resolve v = v.
Proof.
  induction v as [ |z|l IH|r IH] using value_rect_list; simpl; try done; [|lia].
  intros Hl%passes_needed_list_le. f_equal.
  rewrite <- (List.map_id l) at 2. apply List.map_ext_in.
  intros x Hx%list_elem_of_In. rewrite Forall_forall in IH, Hl. by apply IH, Hl.
Qed.

Lemma four_passes v :
  (passes_needed v ≤ 4)%nat → gather (gather (gather (gather v))) = resolve v.
Proof.
  intros Hv. rewrite <- (resolve_gather v), <- (resolve_gather (gather v)),
    <- (resolve_gather (gather (gather v))),
    <- (resolve_gather (gather (gather (gather v)))).
  symmetry. apply resolve_done. by do 4 apply passes_needed_gather.
Qed.

Lemma gather_list l : gather (VList l) = VList (gather <$> l).
Proof. done. Qed.

Lemma gather_done v : passes_needed v ≤ 0 → gather v = v.
Proof.
  induction v as [ |z|l IH|r IH] using value_rect_list; simpl; try done; [|lia].
  intros Hl%passes_needed_list_le. f_equal.
  rewrite <- (List.map_id l) at 2. apply List.map_ext_in.
  intros x Hx%list_elem_of_In. rewrite Forall_forall in IH, Hl. by apply IH, Hl.
Qed.

Lemma passes_needed_resolve v : passes_needed (resolve v) ≤ 0.
Proof.
  induction v as [ |z|l IH|r IH] using value_rect_list; simpl; try done.
  apply passes_needed_list_le, Forall_forall.
  intros y [x [<- Hx]]%list_elem_of_In%in_map_iff.
  rewrite Forall_forall in IH. by apply IH, list_elem_of_In.
Qed.

Lemma four_passes_list l :
  Forall (λ v, passes_needed v ≤ 4) l →
  gather (gather (gather (gather (VList l)))) = VList (resolve <$> l).
Proof.
  intros Hl. rewrite four_passes; [done|]. simpl. by apply passes_needed_list_le.
Qed.

End executor.

(** C3. On an executor that is not started, [submit] returns [None]: it
    raises nothing, whereas [map] in the same state raises
    [ValueError("Executor must be started")]. *)
Theorem submit_before_start_returns_none
    (address : option string) (processes debug : bool)
    (client : DaskExecutor.attribute (option DaskExecutor.Client))
    (dict_to_list : DaskExecutor.value → list DaskExecutor.value)
    (fn : DaskExecutor.callable) (args : list DaskExecutor.value)
    (upstream_states : DaskExecutor.value) :
  let self := DaskExecutor.mk address processes debug false client in
  DaskExecutor.submit fn args self = Return DaskExecutor.VNone
  ∧ DaskExecutor.map dict_to_list fn args upstream_states self
    = Raise (ValueError ExecutorMustBeStarted).
Proof. split; reflexivity. Qed.

(** C5, as the code has it.  On an executor that holds a client, [wait] on a
    list of futures returns a list of the same length whose member at each
    position is the member of the input at that position after four
    resolution passes; a member that needs at most four passes is fully
    resolved. *)
Theorem wait_resolves_four_deep
    (address : option string) (processes debug is_started : bool)
    (c : DaskExecutor.Client) (futures : list DaskExecutor.value)
    (timeout : option nat) :
  let self :=
    DaskExecutor.mk address processes debug is_started
      (DaskExecutor.Bound (Some c)) in
  ∃ results,
    DaskExecutor.wait (DaskExecutor.VList futures) timeout self
    = Return (DaskExecutor.VList results)
    ∧ length results = length futures
    ∧ (∀ i, results !! i =
            (λ v, DaskExecutor.gather (DaskExecutor.gather
                    (DaskExecutor.gather (DaskExecutor.gather v))))
            <$> futures !! i)
    ∧ (∀ i, from_option (λ v, (DaskExecutor.passes_needed v ≤ 4)%nat) True (futures !! i) →
            results !! i = DaskExecutor.resolve <$> futures !! i).
Proof.
  simpl.
  exists ((λ v, DaskExecutor.gather (DaskExecutor.gather
                  (DaskExecutor.gather (DaskExecutor.gather v)))) <$> futures).
  split_and!.
  - unfold DaskExecutor.wait. simpl. do 2 f_equal.
    rewrite !List.map_map. done.
  - by rewrite length_fmap.
  - intros i. by rewrite list_lookup_fmap.
  - intros i Hi. rewrite list_lookup_fmap.
    destruct (futures !! i) as [v|]; simpl in *; [|done].
    by rewrite four_passes.
Qed.

(** C9, as the code has it.  On an executor that holds a client, [wait] on
    the empty list returns the empty list; on an executor whose [client]
    attribute does not exist (never started) or is [None] (after the scope
    of [start]), it raises [AttributeError]. *)
Theorem wait_empty_needs_client
    (address : option string) (processes debug is_started : bool)
    (c : DaskExecutor.Client) (timeout : option nat) :
  DaskExecutor.wait (DaskExecutor.VList []) timeout
    (DaskExecutor.mk address processes debug is_started
       (DaskExecutor.Bound (Some c)))
  = Return (DaskExecutor.VList [])
  ∧ DaskExecutor.wait (DaskExecutor.VList []) timeout
      (DaskExecutor.mk address processes debug is_started DaskExecutor.Unset)
    = Raise (AttributeError NoSuchAttribute)
  ∧ DaskExecutor.wait (DaskExecutor.VList []) timeout
      (DaskExecutor.mk address processes debug is_started
         (DaskExecutor.Bound None))
    = Raise (AttributeError NoSuchAttribute).
Proof. split_and!; reflexivity. Qed.

(** * Further properties of the graph API *)

Section construction.
Context `{SetOrder}.

(** X1. [add_task] either rejects the task for its slug and changes
    nothing, or stores it under its name, where [get_task] finds it, and
    leaves every other name as it was. *)
Theorem add_task_stores_or_rejects (f : Flow.t) (x : Task.t) :
  ((Task.slug x ∈ Task.slug <$> Flow.values f) ∧
   Flow.add_task x f = (f, Raise DuplicateSlugError))
  ∨ ((Task.slug x ∉ Task.slug <$> Flow.values f) ∧
     ∃ f', Flow.add_task x f = (f', Return ())
           ∧ Flow.get_task (Task.name x) f' = (f', Return x)
           ∧ (∀ n, n ≠ Task.name x → Flow.get_task n f' = (f', (Flow.get_task n f).2))
           ∧ Flow.edges f' = Flow.edges f).
Proof.
  rewrite add_task_run. case_decide as Hslug; [by left|right].
  split; [done|]. eexists. split_and!; [done| | |done].
  - rewrite get_task_run. simpl. by rewrite lookup_insert_eq.
  - intros n Hn. rewrite !get_task_run. simpl. by rewrite lookup_insert_ne.
Qed.

Lemma store_task_names f x : names_ok f → names_ok (store_task f x).
Proof. intros Hn. unfold names_ok, store_task. simpl. by apply map_Forall_insert_2. Qed.

Lemma store_task_slugs f x :
  Task.slug x ∉ Task.slug <$> Flow.values f →
  slugs_unique f → slugs_unique (store_task f x).
Proof.
  intros Hfresh Hs k1 x1 H1 k2 x2 H2 Heq. unfold store_task in *. simpl in *.
  assert (∀ k y, Flow.tasks f !! k = Some y → Task.slug y ≠ Task.slug x) as Hne.
  { intros k y Hy Hyx. apply Hfresh. rewrite <- Hyx.
    apply list_elem_of_fmap. exists y. split; [done|].
    apply elem_of_values. by exists k. }
  destruct (decide (Task.name x = k1)) as [<-|Hk1];
    destruct (decide (Task.name x = k2)) as [<-|Hk2]; [done|..].
  - rewrite lookup_insert_eq in H1. rewrite lookup_insert_ne in H2 by done.
    injection H1 as <-. by destruct (Hne _ _ H2).
  - rewrite lookup_insert_eq in H2. rewrite lookup_insert_ne in H1 by done.
    injection H2 as <-. by destruct (Hne _ _ H1).
  - rewrite lookup_insert_ne in H1, H2 by done. by apply (Hs _ _ H1 _ _ H2).
Qed.

Lemma store_task_endpoints f x : endpoints_ok f → endpoints_ok (store_task f x).
Proof.
  intros He e Hin. destruct (He e Hin) as [Hu Hd].
  unfold store_task. simpl. split.
  - destruct (decide (Task.name x = Edge.upstream_task e)) as [<-|?].
    + rewrite lookup_insert_eq. eauto.
    + by rewrite lookup_insert_ne.
  - destruct (decide (Task.name x = Edge.downstream_task e)) as [<-|?].
    + rewrite lookup_insert_eq. eauto.
    + by rewrite lookup_insert_ne.
Qed.

Lemma with_endpoint_slugs x f :
  addable x f → slugs_unique f → slugs_unique (with_endpoint x f).
Proof.
  intros Hadd Hs. unfold with_endpoint. case_decide as Hin; [done|].
  destruct Hadd as [?|Hfresh]; [done|]. by apply (store_task_slugs f x).
Qed.

(** How the endpoint step of [add_edge] ends. *)
Lemma ensure_cases x f :
  (addable x f ∧
   (if decide (x ∈ Flow.values f) then Flow.ret () else Flow.add_task x) f
   = (with_endpoint x f, Return ()))
  ∨ (if decide (x ∈ Flow.values f) then Flow.ret () else Flow.add_task x) f
    = (f, Raise DuplicateSlugError).
Proof.
  unfold with_endpoint, addable. case_decide; [left; by auto|].
  rewrite add_task_run. case_decide; [by right|left; by auto].
Qed.

(** The four ways in which [add_edge] ends. *)
Lemma add_edge_cases u d key f :
  Flow.add_edge u d key f = (f, Raise DuplicateSlugError)
  ∨ (addable u f ∧
     Flow.add_edge u d key f = (with_endpoint u f, Raise DuplicateSlugError))
  ∨ (addable u f ∧ addable d (with_endpoint u f) ∧
     Flow.add_edge u d key f
     = (with_endpoint d (with_endpoint u f), Raise DuplicateKeyError))
  ∨ (addable u f ∧ addable d (with_endpoint u f) ∧
     key_free (Task.name d) key (with_endpoint d (with_endpoint u f)) ∧
     Flow.add_edge u d key f =
     (committed u d key f,
      match (Flow.sorted_tasks None (committed u d key f)).2 with
      | Return _ => Return ()
      | Raise e => Raise e
      | Unfinished => Unfinished
      end)).
Proof.
  destruct (ensure_cases u f) as [[Hu Hru]|Hru].
  2:{ left. unfold Flow.add_edge. simpl.
      rewrite (bind_run Flow.get _ f f f) by done.
      by rewrite (bind_raise _ _ _ _ _ Hru). }
  right. destruct (ensure_cases d (with_endpoint u f)) as [[Hd Hrd]|Hrd].
  2:{ left. split; [done|]. unfold Flow.add_edge. simpl.
      rewrite (bind_run Flow.get _ f f f) by done.
      rewrite (bind_run _ _ _ _ _ Hru).
      rewrite (bind_run Flow.get _ _ _ (with_endpoint u f)) by done.
      by rewrite (bind_raise _ _ _ _ _ Hrd). }
  right.
  destruct (key_check_any (Task.name d) key (with_endpoint d (with_endpoint u f)))
    as [[Hk Hfree]|Hk].
  - right. split_and!; [done..|]. by apply add_edge_run.
  - left. split_and!; [done..|]. unfold Flow.add_edge. simpl.
    rewrite (bind_run Flow.get _ f f f) by done.
    rewrite (bind_run _ _ _ _ _ Hru).
    rewrite (bind_run Flow.get _ _ _ (with_endpoint u f)) by done.
    rewrite (bind_run _ _ _ _ _ Hrd).
    rewrite (bind_run Flow.get _ _ _ (with_endpoint d (with_endpoint u f))) by done.
    by rewrite (bind_raise _ _ _ _ _ Hk).
Qed.

Lemma preserves_conj (P Q : Flow.t → Prop) {A} (m : Flow.M A) :
  (∀ f, P f → Q f → P (m f).1) → (∀ f, P f → Q f → Q (m f).1) →
  preserves (λ f, P f ∧ Q f) m.
Proof. intros HP HQ f [? ?]. split; auto. Qed.

Lemma add_task_flow_inv x : preserves flow_inv (Flow.add_task x).
Proof.
  intros f (Hn & Hs & He & Hk). rewrite add_task_run.
  case_decide as Hslug; [done|]. simpl. split_and!.
  - by apply store_task_names.
  - by apply (store_task_slugs f x).
  - by apply store_task_endpoints.
  - done.
Qed.

Lemma with_endpoint_flow_inv x f :
  addable x f → flow_inv f → flow_inv (with_endpoint x f).
Proof.
  intros Hadd (Hn & Hs & He & Hk). split_and!.
  - by apply with_endpoint_names.
  - by apply with_endpoint_slugs.
  - by apply with_endpoint_endpoints.
  - apply (keys_unique_subseteq f); [|done]. by rewrite with_endpoint_edges.
Qed.

Lemma add_edge_flow_inv u d key : preserves flow_inv (Flow.add_edge u d key).
Proof.
  intros f Hinv.
  pose proof (preserves_add_edge u d key f (proj2 (proj2 (proj2 Hinv)))) as Hkeys.
  destruct (add_edge_cases u d key f) as
    [Hr|[[Hu Hr]|[(Hu & Hd & Hr)|(Hu & Hd & Hfree & Hr)]]];
    rewrite Hr in *; simpl in *.
  - done.
  - by apply with_endpoint_flow_inv.
  - by do 2 (apply with_endpoint_flow_inv; [done|]).
  - assert (flow_inv (with_endpoint d (with_endpoint u f))) as (Hn' & Hs' & He' & _)
      by by do 2 (apply with_endpoint_flow_inv; [done|]).
    destruct Hinv as (Hn & Hs & He & Hk). split_and!.
    + by apply committed_names.
    + done.
    + by apply committed_endpoints.
    + done.
Qed.

Lemma set_dependencies_flow_inv x us ds rs :
  preserves flow_inv (Flow.set_dependencies x us ds rs).
Proof.
  unfold Flow.set_dependencies.
  repeat first
    [ apply add_edge_flow_inv
    | apply add_task_flow_inv
    | apply preserves_ret
    | apply preserves_readonly, readonly_get
    | apply preserves_for_each; intros ? ?
    | progress case_decide
    | apply preserves_bind; [|intros ?] ].
Qed.

End construction.

(** X2. The structural invariants of a flow (every task stored under its
    name, pairwise different slugs, edge endpoints present, at most one edge
    per downstream task and non-null key) hold for a new flow and are kept
    by [add_task], [add_edge] and [set_dependencies], whether the call
    returns or raises. *)
Theorem construction_keeps_invariants `{SetOrder} (f : Flow.t) :
  flow_inv f →
  (∀ name version project schedule concurrent_runs cluster description f0,
     Flow.init name version project schedule concurrent_runs cluster description
     = Return f0 → flow_inv f0)
  ∧ (∀ x, flow_inv (Flow.add_task x f).1)
  ∧ (∀ u d key, flow_inv (Flow.add_edge u d key f).1)
  ∧ (∀ x us ds rs, flow_inv (Flow.set_dependencies x us ds rs f).1).
Proof.
  intros Hinv. split_and!.
  - intros ??????? f0. unfold Flow.init. case_decide; [done|].
    intros [= <-]. split_and!.
    + apply map_Forall_empty.
    + apply map_Forall_empty.
    + intros e He. simpl in He. set_solver.
    + intros e He. simpl in He. set_solver.
  - intros x. by apply add_task_flow_inv.
  - intros u d key. by apply add_edge_flow_inv.
  - intros x us ds rs. by apply set_dependencies_flow_inv.
Qed.

Lemma add_edge_return `{SetOrder} (f f' : Flow.t) (u d : Task.t)
    (key : option string) :
  names_ok f → endpoints_ok f →
  Flow.add_edge u d key f = (f', Return ()) →
  f' = committed u d key f
  ∧ acyclic f'
  ∧ Edge.mk (Task.name u) (Task.name d) key ∈ Flow.edges f'
  ∧ Flow.tasks f' !! Task.name d = Some d
  ∧ is_Some (Flow.tasks f' !! Task.name u).
Proof.
  intros Hn He Hret.
  destruct (add_edge_cases u d key f) as
    [Hr|[[Hu Hr]|[(Hu & Hd & Hr)|(Hu & Hd & Hfree & Hr)]]];
    rewrite Hr in Hret; try done.
  injection Hret as <- Hout.
  pose proof (committed_names u d key f Hn) as Hn'.
  pose proof (committed_endpoints u d key f Hn He) as He'.
  split_and!.
  - done.
  - destruct (sorted_tasks_all (committed u d key f) He' Hn')
      as [(l & _ & _ & _ & Hac)|[Hraise _]]; [done|].
    by rewrite Hraise in Hout.
  - rewrite committed_edges. set_solver.
  - unfold committed. simpl. apply with_endpoint_present.
    by apply with_endpoint_names.
  - apply (He' (Edge.mk (Task.name u) (Task.name d) key)).
    rewrite committed_edges. set_solver.
Qed.

(** X3. When [add_edge] returns, the flow holds both endpoints and the new
    edge, and its edges are acyclic: an edge that would close a cycle never
    comes with a normal return. *)
Theorem add_edge_return_is_acyclic `{SetOrder} (f f' : Flow.t) (u d : Task.t)
    (key : option string) :
  names_ok f → endpoints_ok f →
  Flow.add_edge u d key f = (f', Return ()) →
  f' = committed u d key f
  ∧ acyclic f'
  ∧ Edge.mk (Task.name u) (Task.name d) key ∈ Flow.edges f'
  ∧ Flow.tasks f' !! Task.name d = Some d
  ∧ is_Some (Flow.tasks f' !! Task.name u).
Proof. apply add_edge_return. Qed.

Lemma add_edge_again `{SetOrder} (f : Flow.t) (u d : Task.t) :
  names_ok f → endpoints_ok f → acyclic f →
  u ∈ Flow.values f → d ∈ Flow.values f →
  Edge.mk (Task.name u) (Task.name d) None ∈ Flow.edges f →
  Flow.add_edge u d None f = (f, Return ()).
Proof.
  intros Hn He Hac Hu Hd Hin.
  assert (committed u d None f = f) as Hsame.
  { unfold committed. rewrite (with_endpoint_id u f) by done.
    rewrite (with_endpoint_id d f) by done.
    rewrite <- (set_edges_id f) at 3. f_equal. set_solver. }
  rewrite add_edge_run; rewrite ?(with_endpoint_id u f) by done;
    rewrite ?(with_endpoint_id d f) by done; [|by left|by left|done].
  rewrite Hsame.
  by destruct (sorted_tasks_all f He Hn) as [(l & -> & _)|[_ ?]].
Qed.

(** X4. Adding again an edge without key between two tasks of an acyclic
    flow returns and changes nothing: the edge set is a set. *)
Theorem add_edge_again_is_noop `{SetOrder} (f : Flow.t) (u d : Task.t) :
  names_ok f → endpoints_ok f → acyclic f →
  u ∈ Flow.values f → d ∈ Flow.values f →
  Edge.mk (Task.name u) (Task.name d) None ∈ Flow.edges f →
  Flow.add_edge u d None f = (f, Return ()).
Proof. apply add_edge_again. Qed.

(** ** Roots, terminals and neighbours *)

Section neighbours.
Context `{SetOrder}.







Context (f : Flow.t) (Hn : names_ok f).





End neighbours.


(** X6. [upstream_tasks] and [downstream_tasks] are converse to each other
    on the tasks of a flow: [y] is upstream of [x] exactly when [x] is
    downstream of [y], which is when an edge leads from [y]'s name to [x]'s. *)
Theorem upstream_downstream_converse `{SetOrder} (f : Flow.t) (x y : Task.t) :
  names_ok f → endpoints_ok f → x ∈ Flow.values f → y ∈ Flow.values f →
  ∃ U D,
    Flow.upstream_tasks (inr x) f = (f, Return U)
    ∧ Flow.downstream_tasks (inr y) f = (f, Return D)
    ∧ (y ∈ U ↔ x ∈ D)
    ∧ (y ∈ U ↔ ∃ key, Edge.mk (Task.name y) (Task.name x) key ∈ Flow.edges f).
Proof.
  intros Hn He Hx Hy. eexists _, _.
  split; [by apply upstream_tasks_run|].
  split; [by apply downstream_tasks_run|]. simpl.
  assert (Flow.tasks f !! Task.name x = Some x) as Hxl by by apply values_lookup.
  assert (Flow.tasks f !! Task.name y = Some y) as Hyl by by apply values_lookup.
  assert (y ∈ ups f (Task.name x) ↔
          ∃ key, Edge.mk (Task.name y) (Task.name x) key ∈ Flow.edges f) as HU.
  { rewrite elem_of_ups. split.
    - intros (e & Hin & Hd & Hu). exists (Edge.key e).
      pose proof (Hn _ _ Hu) as Hname. simpl in Hname.
      rewrite Hname, <- Hd. by destruct e.
    - intros [key Hin]. eexists. by split_and!. }
  assert (x ∈ downs f (Task.name y) ↔
          ∃ key, Edge.mk (Task.name y) (Task.name x) key ∈ Flow.edges f) as HD.
  { rewrite elem_of_downs. split.
    - intros (e & Hin & Hu & Hd). exists (Edge.key e).
      pose proof (Hn _ _ Hd) as Hname. simpl in Hname.
      rewrite Hname, <- Hu. by destruct e.
    - intros [key Hin]. eexists. by split_and!. }
  split; [by rewrite HU, HD|done].
Qed.

(** X7. [parameters(only_required=True)] is [parameters()] restricted to the
    entries whose [required] flag is set; every entry stands under the name
    of a parameter task of the flow and carries its [required] and
    [default]. *)
Theorem parameters_required_is_restriction `{SetOrder} (f : Flow.t) :
  names_ok f →
  ∃ every required,
    Flow.parameters false f = (f, Return every)
    ∧ Flow.parameters true f = (f, Return required)
    ∧ (∀ n, required !! n =
            every !! n ≫= λ v : bool * option Z, if v.1 then Some v else None)
    ∧ (∀ n v, every !! n = Some v ↔
              ∃ x, Flow.tasks f !! n = Some x ∧ Task.is_parameter x = true
                   ∧ v = (Task.required x, Task.default x)).
Proof.
  intros Hn.
  destruct (parameters_run false f Hn) as (every & Hevery & Hel).
  destruct (parameters_run true f Hn) as (required & Hrequired & Hrl).
  exists every, required. split_and!; [done..| |].
  - intros n. rewrite Hel, Hrl.
    destruct (Flow.tasks f !! n) as [x|]; simpl; [|done].
    unfold parameter_entry, Task.is_parameter, Task.required.
    by destruct (Task.kind_of x) as [|[] ?].
  - intros n v. rewrite Hel. split.
    + intros (x & Hx & Hv)%bind_Some. exists x. split; [done|].
      unfold parameter_entry in Hv. rewrite andb_true_r in Hv.
      destruct (Task.is_parameter x); by inversion Hv.
    + intros (x & -> & Hp & ->). simpl. unfold parameter_entry. by rewrite Hp.
Qed.

(** ** Sorting below roots, and sub-flows *)

Lemma sorted_tasks_roots_inv `{SetOrder} (f : Flow.t) roots :
  names_ok f → endpoints_ok f → acyclic f → roots_ok f roots →
  ∃ l C, Flow.sorted_tasks (Some roots) f = (f, Return l)
         ∧ sort_inv f C ∅ l
         ∧ ∀ x, x ∈ C ↔ reach f (root_set f roots) x.
Proof.
  intros Hn He Hac Hr. unfold Flow.sorted_tasks.
  set (R := root_set f roots).
  destruct (closure_loop_spec f He R (S (size (R ∪ list_to_set (Flow.values f)))) R ∅)
    as (C & HC & HCreach); [done|set_solver|set_solver| | |lia|].
  { intros x Hx. by apply reach_root. }
  { set_solver. }
  destruct (sort_loop_spec f C He (S (size C)) C []) as
    [(l & Hl & Hinv)|[_ (T & HT & Hb)]];
    [lia|apply sort_inv_init| |].
  - exists l, C. split_and!; [|done..].
    erewrite bind_run; [apply Hl|].
    erewrite bind_run; [|by apply comprehension_roots].
    erewrite bind_run; [|done]. apply HC.
  - by destruct (blocked_cycle f Hn T).
Qed.

(** X8. [sorted_tasks(root_tasks=roots)] lists the tasks below the roots in
    dependency order: for every edge that leaves a listed task, the upstream
    task stands strictly before the downstream task. *)
Theorem sorted_tasks_below_roots_in_order `{SetOrder} (f : Flow.t)
    (roots : list (string + Task.t)) :
  names_ok f → endpoints_ok f → acyclic f → roots_ok f roots →
  ∃ l, Flow.sorted_tasks (Some roots) f = (f, Return l)
       ∧ ∀ e u, e ∈ Flow.edges f → u ∈ l → Task.name u = Edge.upstream_task e →
           before l (Edge.upstream_task e) (Edge.downstream_task e).
Proof.
  intros Hn He Hac Hr.
  destruct (sorted_tasks_roots_inv f roots Hn He Hac Hr)
    as (l & C & Hl & [_ _ Hel Hord] & HC).
  exists l. split; [done|]. intros e u Hin Hu Hname.
  assert (u ∈ C) as HuC by (apply Hel in Hu; set_solver).
  destruct (He e Hin) as [_ [d Hd]].
  assert (d ∈ C) as HdC.
  { apply HC. apply (reach_step f _ u e d); [by apply HC|done..]. }
  assert (d ∈ l) as [j Hj]%list_elem_of_lookup by (apply Hel; set_solver).
  assert (Flow.tasks f !! Edge.upstream_task e = Some u) as Hul.
  { apply values_lookup; [done|]. split; [|done].
    apply (reach_values f (root_set f roots)); [|by apply HC].
    intros y. by apply root_set_values. }
  destruct (Hord j d u Hj) as (i & Hij & Hi); [|done|].
  - apply elem_of_ups. exists e. split_and!; [done| |done].
    symmetry. apply (Hn _ _ Hd).
  - exists i, j, u, d. split_and!; [done..| |done]. apply (Hn _ _ Hd).
Qed.

Lemma comprehension_roots_raise `{SetOrder} (f : Flow.t) roots s :
  inl s ∈ roots → Flow.tasks f !! s = None →
  Flow.comprehension
    (λ r, match r with inl s => Flow.get_task s | inr x => Flow.ret x end)
    roots f
  = (f, Raise NotFoundError).
Proof.
  intros Hin Hs. induction roots as [|r roots IH]; [by apply elem_of_nil in Hin|].
  simpl. unfold_M. destruct r as [s'|x]; simpl.
  - rewrite get_task_run. destruct (Flow.tasks f !! s') as [y|] eqn:Hy; [|done].
    fold (@Flow.bind). unfold_M. rewrite IH; [done|].
    apply elem_of_cons in Hin as [[= ->]|?]; [congruence|done].
  - fold (@Flow.bind). unfold_M. rewrite IH; [done|].
    by apply elem_of_cons in Hin as [?|?].
Qed.

(** X9. A root given by a name that the flow does not have makes both
    [sorted_tasks] and [sub_flow] raise the not-found error of [get_task];
    the flow is unchanged. *)
Theorem unknown_root_raises `{SetOrder} (f : Flow.t)
    (roots : list (string + Task.t)) (s : string) :
  inl s ∈ roots → Flow.tasks f !! s = None →
  Flow.sorted_tasks (Some roots) f = (f, Raise NotFoundError)
  ∧ Flow.sub_flow (Some roots) f = (f, Raise NotFoundError).
Proof.
  intros Hin Hs.
  assert (Flow.sorted_tasks (Some roots) f = (f, Raise NotFoundError)) as Hsorted.
  { unfold Flow.sorted_tasks. apply bind_raise. apply bind_raise.
    by apply (comprehension_roots_raise f roots s). }
  split; [done|]. unfold Flow.sub_flow.
  erewrite bind_run; [|done]. by apply bind_raise.
Qed.

Lemma same_attrs_store_all (l : list Task.t) g : same_attrs (foldl store_task g l) g.
Proof.
  revert g. induction l as [|x l IH]; intros g; simpl; [done|].
  destruct (IH (store_task g x)) as (?&?&?&?&?&?&?). by split_and!.
Qed.

Lemma same_attrs_copy (l : list Edge.t) sub :
  same_attrs
    (foldl
       (λ sub e,
          if decide (Edge.upstream_task e ∈ dom (Flow.tasks sub)
                     ∧ Edge.downstream_task e ∈ dom (Flow.tasks sub))
          then Flow.set_edges (Flow.edges sub ∪ {[e]}) sub
          else sub)
       sub l) sub.
Proof.
  revert sub. induction l as [|e l IH]; intros sub; simpl; [done|].
  case_decide; [|apply IH].
  destruct (IH (Flow.set_edges (Flow.edges sub ∪ {[e]}) sub)) as (?&?&?&?&?&?&?).
  by split_and!.
Qed.

Lemma flow_ext (g g' : Flow.t) :
  same_attrs g g' → Flow.tasks g = Flow.tasks g' → Flow.edges g = Flow.edges g' →
  g = g'.
Proof.
  destruct g, g'. intros (?&?&?&?&?&?&?) ? ?. simpl in *. by subst.
Qed.

(** The flow that [sub_flow] builds from the sorted list [l]. *)
Lemma sub_flow_build `{SetOrder} (f : Flow.t) roots (l : list Task.t) :
  names_ok f → slugs_unique f →
  Flow.sorted_tasks roots f = (f, Return l) →
  NoDup l → (∀ x, x ∈ l → x ∈ Flow.values f) →
  ∃ sub, Flow.sub_flow roots f = (f, Return sub)
         ∧ same_attrs sub f
         ∧ (∀ n y, Flow.tasks sub !! n = Some y ↔ y ∈ l ∧ Task.name y = n)
         ∧ ∀ e, e ∈ Flow.edges sub ↔
                e ∈ Flow.edges f
                ∧ (∃ u, u ∈ l ∧ Task.name u = Edge.upstream_task e)
                ∧ (∃ d, d ∈ l ∧ Task.name d = Edge.downstream_task e).
Proof.
  intros Hn Hs Hsorted Hnd Hval.
  set (sub0 := Flow.set_edges ∅ (Flow.set_tasks ∅ f)).
  set (sub1 := foldl store_task sub0 l).
  assert (NoDup (Task.name <$> l)) as Hnames.
  { apply NoDup_fmap_2_strong; [|done].
    intros x y Hx Hy. apply (values_name_inj f Hn); by apply Hval. }
  assert (∀ n y, Flow.tasks sub1 !! n = Some y ↔ y ∈ l ∧ Task.name y = n) as Hlook.
  { intros n y. unfold sub1. rewrite store_all_lookup by done.
    unfold sub0. simpl. rewrite lookup_empty. naive_solver. }
  assert (∀ n, n ∈ dom (Flow.tasks sub1) ↔ ∃ y, y ∈ l ∧ Task.name y = n) as Hdom.
  { intros n. rewrite elem_of_dom. unfold is_Some.
    by setoid_rewrite Hlook. }
  destruct (copy_edges_spec (iter (Flow.edges f)) sub1) as [Ht Hedges].
  eexists. split_and!.
  - unfold Flow.sub_flow.
    erewrite bind_run; [|done].
    erewrite bind_run; [|apply Hsorted].
    erewrite bind_run; [done|].
    unfold Flow.on_object. fold sub0. rewrite add_all_run; [done| |].
    + apply NoDup_fmap_2_strong; [|done].
      intros x y Hx Hy. apply (values_slug_inj f); by auto.
    + intros x _ [y [_ Hy]]%list_elem_of_fmap.
      apply elem_of_values in Hy as [k Hk]. unfold sub0 in Hk. simpl in Hk.
      by rewrite lookup_empty in Hk.
  - clear Hlook Hdom Ht Hedges. subst sub1 sub0.
    destruct (same_attrs_copy (iter (Flow.edges f))
                (foldl store_task (Flow.set_edges ∅ (Flow.set_tasks ∅ f)) l))
      as (?&?&?&?&?&?&?).
    destruct (same_attrs_store_all l (Flow.set_edges ∅ (Flow.set_tasks ∅ f)))
      as (?&?&?&?&?&?&?).
    simpl in *. unfold same_attrs. split_and!; congruence.
  - intros n y. simpl. fold sub0 sub1. by rewrite Ht, Hlook.
  - intros e. simpl. fold sub0 sub1. rewrite Hedges, !Hdom, elem_of_iter.
    unfold sub1. rewrite store_all_edges. unfold sub0. simpl.
    rewrite elem_of_empty. naive_solver.
Qed.

(** X10. On an acyclic flow, [sub_flow()] without roots returns a flow equal
    to the flow: the same attributes, the same task mapping and the same
    edge set. *)
Theorem sub_flow_without_roots_is_copy `{SetOrder} (f : Flow.t) :
  names_ok f → slugs_unique f → endpoints_ok f → acyclic f →
  Flow.sub_flow None f = (f, Return f).
Proof.
  intros Hn Hs He Hac.
  destruct (sorted_tasks_all f He Hn) as [(l & Hsorted & Hl & _)|[_ ?]]; [|done].
  destruct (sub_flow_build f None l Hn Hs Hsorted) as (sub & -> & Hattrs & Ht & Hedges).
  { rewrite Hl. by apply NoDup_values. }
  { intros x. by rewrite Hl. }
  do 2 f_equal. apply flow_ext; [done| |].
  - apply map_eq. intros n. apply option_eq. intros y.
    rewrite Ht, Hl. by apply values_lookup.
  - apply set_eq. intros e. rewrite Hedges. split; [by intros [? _]|].
    intros Hin. split; [done|]. destruct (He e Hin) as [[u Hu] [d Hd]].
    split.
    + exists u. rewrite Hl. by apply values_lookup.
    + exists d. rewrite Hl. by apply values_lookup.
Qed.

(** X11. The flow that [sub_flow(root_tasks=roots)] returns satisfies the
    structural invariants again and is acyclic; its task mapping is part of
    the flow's. *)
Theorem sub_flow_is_well_formed `{SetOrder} (f : Flow.t)
    (roots : list (string + Task.t)) :
  flow_inv f → acyclic f → roots_ok f roots →
  ∃ sub, Flow.sub_flow (Some roots) f = (f, Return sub)
         ∧ flow_inv sub ∧ acyclic sub
         ∧ Flow.tasks sub ⊆ Flow.tasks f
         ∧ Flow.edges sub ⊆ Flow.edges f.
Proof.
  intros (Hn & Hs & He & Hk) Hac Hr.
  destruct (sorted_tasks_roots_inv f roots Hn He Hac Hr)
    as (l & C & Hl & [_ Hnd Hel _] & HC).
  assert (∀ x, x ∈ l → x ∈ Flow.values f) as Hval.
  { intros x Hx%Hel. apply (reach_values f (root_set f roots)).
    - intros y. by apply root_set_values.
    - apply HC. set_solver. }
  destruct (sub_flow_build f (Some roots) l Hn Hs Hl Hnd Hval)
    as (sub & Hsub & _ & Ht & Hedges).
  assert (Flow.tasks sub ⊆ Flow.tasks f) as Htsub.
  { apply map_subseteq_spec. intros n y [Hy Hyn]%Ht.
    apply values_lookup; auto. }
  assert (Flow.edges sub ⊆ Flow.edges f) as Hesub.
  { intros e He'%Hedges. tauto. }
  exists sub. split_and!; [done| |by apply (acyclic_subseteq f)|done|done].
  split_and!.
  - intros n y Hy. by apply Ht in Hy as [_ ?].
  - intros k1 x1 H1 k2 x2 H2.
    apply (Hs k1 x1 (lookup_weaken _ _ _ _ H1 Htsub) k2 x2 (lookup_weaken _ _ _ _ H2 Htsub)).
  - intros e (Hin & (u & Hu & Hun) & (d & Hd & Hdn))%Hedges. split.
    + exists u. by apply Ht.
    + exists d. by apply Ht.
  - by apply (keys_unique_subseteq f).
Qed.

(** ** What the reconstruction paths guarantee *)

Section reconstruction.
Context `{SetOrder}.

Lemma add_task_graph_ok x : returns_with graph_ok graph_ok (Flow.add_task x).
Proof.
  intros f f' a [Hinv Hac] Hr. split.
  - pose proof (add_task_flow_inv x f Hinv) as Hinv'. by rewrite Hr in Hinv'.
  - apply (acyclic_subseteq f); [|done].
    pose proof (add_task_edges x f) as He. rewrite Hr in He. simpl in He.
    by rewrite He.
Qed.

Lemma add_edge_graph_ok u d key :
  returns_with graph_ok graph_ok (Flow.add_edge u d key).
Proof.
  intros f f' [] [Hinv Hac] Hr. split.
  - pose proof (add_edge_flow_inv u d key f Hinv) as Hinv'. by rewrite Hr in Hinv'.
  - destruct Hinv as (Hn & _ & He & _).
    by destruct (add_edge_return f f' u d key Hn He Hr) as (_ & ? & _).
Qed.

Lemma graph_ok_empty g :
  Flow.tasks g = ∅ → Flow.edges g = ∅ → graph_ok g.
Proof.
  intros Ht He. split; [split_and!|].
  - unfold names_ok. rewrite Ht. apply map_Forall_empty.
  - unfold slugs_unique. rewrite Ht. apply map_Forall_empty.
  - intros e Hin. rewrite He in Hin. set_solver.
  - intros e Hin. rewrite He in Hin. set_solver.
  - intros n Hc.
    inversion Hc as [?? [k Hk]|??? [k Hk] _]; rewrite He in Hk; set_solver.
Qed.

Lemma settles_bind (P : Flow.t → Prop) {A B} (m : Flow.M A)
    (k : A → Flow.M B) :
  settles P m → (∀ a, settles P (k a)) → settles P (m ≫= k).
Proof.
  intros Hm Hk f HP.
  destruct (Hm f HP) as [(f1 & a & Hr & HP1)|(f1 & msg & Hr)].
  - rewrite (bind_run _ _ _ _ _ Hr). by apply Hk.
  - right. exists f1, msg. by rewrite (bind_raise _ _ _ _ _ Hr).
Qed.

Lemma settles_for_each (P : Flow.t → Prop) {A S} (l : list A)
    (body : S → A → Flow.M S) s :
  (∀ s x, settles P (body s x)) → settles P (Flow.for_each l body s).
Proof.
  intros Hb. revert s. induction l as [|x l IH]; intros s; simpl.
  - intros f HP. left. by exists f, s.
  - apply settles_bind; [apply Hb|intros; apply IH].
Qed.

Lemma settles_get_task (P : Flow.t → Prop) n : settles P (Flow.get_task n).
Proof.
  intros f HP. rewrite get_task_run.
  destruct (Flow.tasks f !! n) as [x|]; [left|right]; by eauto.
Qed.

Lemma settles_add_task x : settles graph_ok (Flow.add_task x).
Proof.
  intros f Hok.
  destruct (Flow.add_task x f) as [f' [[]|e|]] eqn:Hr.
  - left. exists f', (). split; [done|]. by apply (add_task_graph_ok x f f' ()).
  - right. rewrite add_task_run in Hr. case_decide; simplify_eq. by eauto.
  - rewrite add_task_run in Hr. by case_decide.
Qed.

Lemma settles_add_edge u d key : settles graph_ok (Flow.add_edge u d key).
Proof.
  intros f [Hinv Hac].
  destruct (add_edge_cases u d key f)
    as [Hr|[(_ & Hr)|[(_ & _ & Hr)|(_ & _ & _ & Hr)]]];
    [right; eexists _, _; exact Hr..|].
  destruct Hinv as (Hn & Hs & He & Hk).
  destruct (sorted_tasks_all (committed u d key f)
              (committed_endpoints u d key f Hn He) (committed_names u d key f Hn))
    as [(l & Hsort & _)|[Hsort _]]; rewrite Hsort in Hr; simpl in Hr.
  - left. exists (committed u d key f), (). split; [done|].
    by apply (add_edge_graph_ok u d key f _ ()).
  - right. by eauto.
Qed.

End reconstruction.

(** X12. Whatever record it is given, [safe_deserialize] comes to an end in
    one of two ways: it returns a flow that satisfies the structural
    invariants and is acyclic, or it raises a [ValueError].  So a record
    without a name, with colliding slugs, with an edge that names a missing
    task, with two edges on one (downstream task, key) or with a cycle never
    yields a flow. *)
Theorem safe_deserialize_returns_well_formed `{SetOrder} `{Flow.Collaborators}
    (s : Flow.serialized) :
  (∃ g, Flow.safe_deserialize s = Return g ∧ flow_inv g ∧ acyclic g)
  ∨ (∃ msg, Flow.safe_deserialize s = Raise (ValueError msg)).
Proof.
  unfold Flow.safe_deserialize, Flow.init. case_decide; [right; by eexists|].
  match goal with |- context [(?m ≫= ?k) ?g] =>
    assert (settles graph_ok (m ≫= k)) as Hs;
    [|destruct (Hs g) as [(g' & [] & Hr & Hinv & Hac)|(g' & msg & Hr)];
      [by apply graph_ok_empty|rewrite Hr; left; by eauto
      |rewrite Hr; right; by eauto]]
  end.
  apply settles_bind.
  - apply settles_for_each. intros _ task. apply settles_add_task.
  - intros _. apply settles_for_each. intros _ edge.
    apply settles_bind; [apply settles_get_task|intros u].
    apply settles_bind; [apply settles_get_task|intros d].
    apply settles_add_edge.
Qed.

(** X13. On a flow that satisfies the name and endpoint invariants,
    [serialize] returns exactly when the edges are acyclic.  The record then
    copies the attributes of the flow and holds its slug and [parameters()];
    its task list is the list of [sorted_tasks()], a rearrangement of the
    tasks of the flow, each task serialized and given its position, counted
    from one, as sort order; its edge list is the edges of the flow, each
    one serialized once; and the blob is the serialized copy of the flow
    without tasks and edges.  On a flow with a cycle [serialize] raises the
    cycle error.  The flow is unchanged. *)
Theorem serialize_returns_iff_acyclic `{SetOrder} `{Flow.Collaborators}
    (f : Flow.t) :
  names_ok f → endpoints_ok f →
  (acyclic f →
   ∃ s, Flow.serialize f = (f, Return s)
        ∧ Flow.s_name s = Flow.name f ∧ Flow.s_project s = Flow.project f
        ∧ Flow.s_version s = Flow.version f
        ∧ Flow.s_description s = Flow.description f
        ∧ Flow.s_executor_args s = Flow.cluster f
        ∧ length (Flow.s_tasks s) = size (Flow.tasks f)
        ∧ length (Flow.s_edges s) = size (Flow.edges f)
        ∧ (Flow.parameters false f).2 = Return (Flow.s_parameters s)
        ∧ (∃ l, Flow.sorted_tasks None f = (f, Return l)
                ∧ l ≡ₚ Flow.values f
                ∧ ∀ i, Flow.s_tasks s !! i
                       = (λ x, Flow.with_sort_order (Flow.Task_serialize x) (i + 1))
                           <$> l !! i)
        ∧ Flow.s_edges s ≡ₚ Flow.Edge_serialize <$> elements (Flow.edges f)
        ∧ (Flow.slug f).2 = Return (Flow.s_slug s)
        ∧ Flow.s_schedule s = Flow.schedule_serialize (Flow.schedule f)
        ∧ Flow.s_concurrent_runs s = Flow.concurrent_runs f
        ∧ Flow.s_serialized s
          = Flow.utilities_serialize (Flow.set_edges ∅ (Flow.set_tasks ∅ f)))
  ∧ (¬ acyclic f → Flow.serialize f = (f, Raise CycleError)).
Proof.
  intros Hn He. split.
  - intros Hac.
    destruct (sorted_tasks_all f He Hn) as [(l & Hsorted & Hl & _)|[_ ?]]; [|done].
    destruct (slug_run f) as [sl Hsl].
    destruct (parameters_run false f Hn) as (m & Hm & _).
    eexists. split.
    { unfold Flow.serialize.
      erewrite bind_run; [|done].
      erewrite bind_run; [|apply Hsorted].
      erewrite bind_run; [|apply Hsl].
      erewrite bind_run; [|apply Hm]. reflexivity. }
    split_and!; try done.
    + simpl. rewrite length_imap, Hl. unfold Flow.values.
      by rewrite length_fmap, length_map_to_list.
    + simpl. rewrite length_fmap, (iter_perm (Flow.edges f)). done.
    + by rewrite Hm.
    + exists l. split_and!; [done..|]. intros i. simpl.
      by rewrite list_lookup_imap.
    + simpl. by rewrite (iter_perm (Flow.edges f)).
    + by rewrite Hsl.
  - intros Hcyc.
    destruct (sorted_tasks_all f He Hn) as [(l & _ & _ & _ & ?)|[Hraise _]]; [done|].
    unfold Flow.serialize. erewrite bind_run; [|done]. by apply bind_raise.
Qed.

(** ** Keyword arguments of [run] *)

Lemma move_kwargs {V} (l : list string) (pa kw : gmap string V) :
  NoDup l →
  let r := foldl (λ (st : gmap string V * gmap string V) p,
                    match st.2 !! p with
                    | Some v => (<[p := v]> st.1, delete p st.2)
                    | None => st
                    end) (pa, kw) l in
  (∀ k, r.2 !! k = if decide (k ∈ l) then None else kw !! k)
  ∧ (∀ k, r.1 !! k = if decide (k ∈ l) then from_option Some (pa !! k) (kw !! k)
                     else pa !! k).
Proof.
  revert pa kw. induction l as [|p l IH]; intros pa kw Hnd; cbn [foldl fst snd].
  { split; intros k; by rewrite decide_False by apply not_elem_of_nil. }
  apply NoDup_cons in Hnd as [Hp Hnd].
  assert (∃ pa1 kw1,
            match kw !! p with
            | Some v => (<[p:=v]> pa, delete p kw)
            | None => (pa, kw)
            end = (pa1, kw1)
            ∧ (∀ k, kw1 !! k = if decide (k = p) then None else kw !! k)
            ∧ (∀ k, pa1 !! k = if decide (k = p)
                               then from_option Some (pa !! k) (kw !! k)
                               else pa !! k))
    as (pa1 & kw1 & -> & Hkw1 & Hpa1).
  { destruct (kw !! p) as [v|] eqn:Hkp; eexists _, _; split_and!; try done;
      intros k; destruct (decide (k = p)) as [->|];
      rewrite ?lookup_delete_eq, ?lookup_insert_eq, ?Hkp;
      rewrite ?lookup_delete_ne, ?lookup_insert_ne by done; done. }
  destruct (IH pa1 kw1 Hnd) as [Hkw Hpa]. cbn zeta in *.
  split; intros k.
  - rewrite Hkw, Hkw1. destruct (decide (k = p)) as [->|Hne].
    + rewrite (decide_True (P := p ∈ p :: l)) by left. by destruct (decide (p ∈ l)).
    + destruct (decide (k ∈ l));
        [rewrite decide_True by (by right)|rewrite decide_False by set_solver];
        done.
  - rewrite Hpa, Hpa1, Hkw1. destruct (decide (k = p)) as [->|Hne].
    + rewrite decide_False by done. by rewrite decide_True by left.
    + destruct (decide (k ∈ l));
        [rewrite decide_True by (by right)|rewrite decide_False by set_solver];
        done.
Qed.

(** X14. [run] hands the runner the flow, the executor and the flag as
    given; of the keyword arguments, those that name a parameter of the flow
    reach the runner inside [parameters] (where they replace an entry of the
    same name) and no longer among the keyword arguments, and the others
    stay keyword arguments.  The flow is unchanged. *)
Theorem run_moves_parameter_kwargs `{SetOrder} {E V R} (f : Flow.t)
    (runner_run : Flow.t → option E → gmap string V → bool → gmap string V → R)
    (given : option (gmap string V)) (executor : option E) (flag : bool)
    (kwargs : gmap string V) :
  ∃ ps parameters rest,
    Flow.parameters false f = (f, Return ps)
    ∧ Flow.run runner_run given executor flag kwargs f
      = (f, Return (runner_run f executor parameters flag rest))
    ∧ (∀ k, rest !! k = if decide (k ∈ dom ps) then None else kwargs !! k)
    ∧ (∀ k, parameters !! k =
            if decide (k ∈ dom ps)
            then from_option Some (default ∅ given !! k) (kwargs !! k)
            else default ∅ given !! k).
Proof.
  assert (∃ ps, Flow.parameters false f = (f, Return ps)) as [ps Hps]
    by (eexists; reflexivity).
  destruct (move_kwargs (map_to_list ps).*1 (default ∅ given) kwargs)
    as [Hkw Hpa]; [apply NoDup_fst_map_to_list|].
  assert (∀ k, k ∈ (map_to_list ps).*1 ↔ k ∈ dom ps) as Hkeys.
  { intros k. rewrite elem_of_dom, list_elem_of_fmap. split.
    - intros [[k' v] [-> Hin%elem_of_map_to_list]]. eauto.
    - intros [v Hv]. exists (k, v). split; [done|]. by apply elem_of_map_to_list. }
  eexists ps, _, _. split_and!; [done| | |].
  - unfold Flow.run. erewrite bind_run; [|done].
    erewrite bind_run; [|apply Hps]. reflexivity.
  - intros k. rewrite Hkw. apply decide_ext, Hkeys.
  - intros k. rewrite Hpa. apply decide_ext, Hkeys.
Qed.

(** ** The full path *)

Lemma store_all_values (l : list Task.t) g x :
  x ∈ Flow.values (foldl store_task g l) → x ∈ l ∨ x ∈ Flow.values g.
Proof.
  revert g. induction l as [|y l IH]; intros g Hx; simpl in *; [by right|].
  destruct (IH _ Hx) as [?|[->|?]%elem_of_values_store].
  - left. by right.
  - left. by left.
  - by right.
Qed.

Lemma store_all_names (l : list Task.t) g :
  names_ok g → names_ok (foldl store_task g l).
Proof.
  revert g. induction l as [|y l IH]; intros g Hg; simpl; [done|].
  by apply IH, store_task_names.
Qed.

(** X15. [deserialize] checks nothing about the edges: whenever the
    deserialized tasks have pairwise different slugs it returns, the tasks
    stand under their names, and the edge set is the set of the deserialized
    edges as they come, whether or not their endpoints exist, their keys
    collide or they form a cycle. *)
Theorem deserialize_takes_edges_unchecked `{Flow.Collaborators}
    `{!Flow.FullCollaborators} (s : Flow.serialized) :
  NoDup (Task.slug <$> (Flow.Task_deserialize <$> Flow.s_tasks s)) →
  ∃ g, Flow.deserialize s = Return g
       ∧ Flow.edges g = list_to_set (Flow.Edge_deserialize <$> Flow.s_edges s)
       ∧ Flow.schedule g = Flow.schedules_deserialize (Flow.s_schedule s)
       ∧ names_ok g
       ∧ ∀ x, x ∈ Flow.values g → x ∈ Flow.Task_deserialize <$> Flow.s_tasks s.
Proof.
  intros Hnd. unfold Flow.deserialize.
  set (obj := Flow.set_tasks ∅ (Flow.utilities_deserialize (Flow.s_serialized s))).
  assert (Flow.values obj = []) as Hempty.
  { unfold Flow.values, obj. simpl. by rewrite map_to_list_empty. }
  rewrite <- (for_each_fmap Flow.Task_deserialize _ (λ _ x, Flow.add_task x)).
  rewrite add_all_run; [|done|].
  2:{ intros x _. rewrite Hempty. simpl. apply not_elem_of_nil. }
  eexists. split_and!; [reflexivity|done|done| |].
  - apply (store_all_names _ obj). intros n x Hx. unfold obj in Hx. simpl in Hx.
    by rewrite lookup_empty in Hx.
  - intros x Hx.
    destruct (store_all_values (Flow.Task_deserialize <$> Flow.s_tasks s) obj x) as [?|Hin];
      [exact Hx|done|].
    rewrite Hempty in Hin. by apply elem_of_nil in Hin.
Qed.

(** * Further properties of the executor *)

Lemma wait_run address processes debug is_started c v timeout :
  DaskExecutor.wait v timeout
    (DaskExecutor.mk address processes debug is_started
       (DaskExecutor.Bound (Some c)))
  = Return (DaskExecutor.gather (DaskExecutor.gather
              (DaskExecutor.gather (DaskExecutor.gather v)))).
Proof. done. Qed.

(** X16. The scope of [start]: inside it [submit] returns a future holding
    the value of the call and [map] a future of the list of futures; after
    it the executor is not started and its client is [None], so that
    [submit] returns [None], [map] raises [ValueError] and [wait] raises
    [AttributeError], whatever state the executor was in before. *)
Theorem start_scope (self : DaskExecutor.t)
    (dict_to_list : DaskExecutor.value → list DaskExecutor.value)
    (fn : DaskExecutor.callable) (args futures : list DaskExecutor.value)
    (upstream_states : DaskExecutor.value) (timeout : option nat) :
  let inside := DaskExecutor.start_enter self in
  let after := DaskExecutor.start_exit inside in
  DaskExecutor.submit fn args inside = Return (DaskExecutor.VFuture (fn args))
  ∧ DaskExecutor.map dict_to_list fn args upstream_states inside
    = Return (DaskExecutor.VFuture
                (DaskExecutor.VList
                   ((λ elem, DaskExecutor.VFuture (fn (args ++ [elem])))
                      <$> dict_to_list upstream_states)))
  ∧ DaskExecutor.is_started after = false
  ∧ DaskExecutor.client after = DaskExecutor.Bound None
  ∧ DaskExecutor.address after = DaskExecutor.address self
  ∧ DaskExecutor.submit fn args after = Return DaskExecutor.VNone
  ∧ DaskExecutor.map dict_to_list fn args upstream_states after
    = Raise (ValueError ExecutorMustBeStarted)
  ∧ DaskExecutor.wait (DaskExecutor.VList futures) timeout after
    = Raise (AttributeError NoSuchAttribute).
Proof. by split_and!. Qed.


(** X18. On an executor that holds a client, [wait] returns results on
    which a second [wait] changes nothing, provided no member is nested more
    than four futures deep; in particular, concrete values come back as they
    are. *)
Theorem wait_is_idempotent
    (address : option string) (processes debug is_started : bool)
    (c : DaskExecutor.Client) (futures : list DaskExecutor.value)
    (timeout timeout' : option nat) :
  Forall (λ v, DaskExecutor.passes_needed v ≤ 4) futures →
  let self :=
    DaskExecutor.mk address processes debug is_started
      (DaskExecutor.Bound (Some c)) in
  DaskExecutor.wait (DaskExecutor.VList futures) timeout self
  = Return (DaskExecutor.VList (DaskExecutor.resolve <$> futures))
  ∧ DaskExecutor.wait (DaskExecutor.VList (DaskExecutor.resolve <$> futures))
      timeout' self
    = Return (DaskExecutor.VList (DaskExecutor.resolve <$> futures))
  ∧ (Forall (λ v, DaskExecutor.passes_needed v ≤ 0) futures →
     DaskExecutor.wait (DaskExecutor.VList futures) timeout self
     = Return (DaskExecutor.VList futures)).
Proof.
  intros Hl. cbn zeta. rewrite !wait_run.
  assert (Forall (λ v, DaskExecutor.passes_needed v ≤ 4)
            (DaskExecutor.resolve <$> futures)) as Hres.
  { apply Forall_fmap, Forall_forall. intros v _. simpl.
    pose proof (passes_needed_resolve v). lia. }
  split_and!.
  - f_equal. by apply four_passes_list.
  - f_equal. rewrite (four_passes_list _ Hres). f_equal.
    rewrite <- list_fmap_compose. apply list_fmap_ext. intros _ v _. simpl.
    apply resolve_done, passes_needed_resolve.
  - intros Hdone. f_equal. rewrite (four_passes_list _ Hl). f_equal.
    rewrite <- (list_fmap_id futures) at 2. apply list_fmap_ext.
    intros i v Hv. simpl. apply resolve_done.
    rewrite Forall_forall in Hdone. apply Hdone.
    by apply list_elem_of_lookup_2 in Hv.
Qed.

(** X19. On a started executor that holds a client, the future that
    [submit] returns resolves, through [wait], to the value of the call,
    when that value is nested at most three futures deep; and the future
    that [map] returns resolves to the list of the values of the calls, one
    per element of [dict_to_list(upstream_states)] and in that order, when
    those values are nested at most two futures deep. *)
Theorem submit_and_map_then_wait
    (address : option string) (processes debug : bool)
    (c : DaskExecutor.Client)
    (dict_to_list : DaskExecutor.value → list DaskExecutor.value)
    (fn : DaskExecutor.callable) (args : list DaskExecutor.value)
    (upstream_states : DaskExecutor.value) (timeout : option nat) :
  DaskExecutor.passes_needed (fn args) ≤ 3 →
  Forall (λ elem, DaskExecutor.passes_needed (fn (args ++ [elem])) ≤ 2)
    (dict_to_list upstream_states) →
  let self :=
    DaskExecutor.mk address processes debug true (DaskExecutor.Bound (Some c)) in
  (∃ future,
     DaskExecutor.submit fn args self = Return future
     ∧ DaskExecutor.wait (DaskExecutor.VList [future]) timeout self
       = Return (DaskExecutor.VList [DaskExecutor.resolve (fn args)]))
  ∧ (∃ future,
       DaskExecutor.map dict_to_list fn args upstream_states self = Return future
       ∧ DaskExecutor.wait (DaskExecutor.VList [future]) timeout self
         = Return (DaskExecutor.VList
                     [DaskExecutor.VList
                        ((λ elem, DaskExecutor.resolve (fn (args ++ [elem])))
                           <$> dict_to_list upstream_states)])).
Proof.
  intros Hfn Hmap. cbn zeta. split.
  - eexists. split; [reflexivity|]. rewrite wait_run.
    f_equal. rewrite four_passes_list; [done|].
    apply Forall_singleton. unfold DaskExecutor.Client_submit. simpl. lia.
  - eexists. split; [reflexivity|]. rewrite wait_run.
    f_equal. rewrite four_passes_list.
    + simpl. do 3 f_equal. unfold DaskExecutor.mapper.
      change (List.map ?g ?l) with (g <$> l).
      rewrite <- list_fmap_compose. done.
    + apply Forall_singleton. simpl. apply le_n_S.
      unfold DaskExecutor.mapper. apply passes_needed_list_le, Forall_fmap.
      eapply Forall_impl; [apply Hmap|]. intros elem Helem. simpl in *.
      unfold DaskExecutor.Client_submit. simpl. lia.
Qed.

(** Closed instances of the invariants are decided by evaluation. *)
Ltac by_evaluation :=
  unfold names_ok, endpoints_ok, slugs_unique, keys_unique;
  apply (bool_decide_unpack _); by vm_compute.

Lemma scenario_names_ok : names_ok scenario.
Proof. by_evaluation. Qed.

Lemma scenario_endpoints_ok : endpoints_ok scenario.
Proof. by_evaluation. Qed.

Lemma scenario_acyclic : acyclic scenario.
Proof.
  apply (acyclic_by_rank scenario scenario_rank). by_evaluation.
Qed.

Lemma sorted_tasks_topological_witness :
  ∃ l, @Flow.sorted_tasks elements_order None scenario = (scenario, Return l)
       ∧ l ≡ₚ Flow.values scenario
       ∧ ∀ e, e ∈ Flow.edges scenario →
           before l (Edge.upstream_task e) (Edge.downstream_task e).
Proof.
  destruct (@sorted_tasks_topological elements_order scenario) as [Hsort _].
  - apply scenario_names_ok.
  - apply scenario_endpoints_ok.
  - apply Hsort, scenario_acyclic.
Defined.

(** The edge [C→A] closes the cycle [A→C→A] in the scenario. *)
Lemma scenario_closing_edge_cyclic :
  ¬ acyclic (committed task_C task_A None scenario).
Proof.
  intros Hac. apply (Hac "A").
  apply (tc_l _ _ "C").
  - exists None. apply (bool_decide_unpack _). by vm_compute.
  - apply tc_once. exists None. apply (bool_decide_unpack _). by vm_compute.
Qed.

Lemma add_edge_cycle_is_committed_witness :
  @Flow.add_edge elements_order task_C task_A None scenario
  = (committed task_C task_A None scenario, Raise CycleError)
  ∧ Flow.edges (committed task_C task_A None scenario)
    = Flow.edges scenario ∪ {[Edge.mk "C" "A" None]}
  ∧ is_Some (Flow.tasks (committed task_C task_A None scenario) !! "C")
  ∧ is_Some (Flow.tasks (committed task_C task_A None scenario) !! "A").
Proof.
  apply (@add_edge_cycle_is_committed elements_order scenario task_C task_A None).
  - apply scenario_names_ok.
  - apply scenario_endpoints_ok.
  - left. apply (bool_decide_unpack _). by vm_compute.
  - left. apply (bool_decide_unpack _). by vm_compute.
  - exact I.
  - apply scenario_closing_edge_cyclic.
Defined.

(** C2 as the specification states it fails: after the failed call the edge
    [C→A] is in the edge set, which it was not before. *)
Lemma add_edge_cycle_not_atomic :
  (@Flow.add_edge elements_order task_C task_A None scenario).2
  = Raise CycleError
  ∧ Flow.edges (@Flow.add_edge elements_order task_C task_A None scenario).1
    = Flow.edges scenario ∪ {[Edge.mk "C" "A" None]}
  ∧ Edge.mk "C" "A" None ∉ Flow.edges scenario.
Proof.
  split_and!.
  - by vm_compute.
  - apply (bool_decide_unpack _). by vm_compute.
  - apply (bool_decide_unpack _). by vm_compute.
Qed.

Lemma scenario_keys_unique : keys_unique scenario.
Proof. by_evaluation. Qed.

Lemma duplicate_key_invariant_witness :
  keys_unique (@Flow.add_edge elements_order task_A task_C (Some "b_result") scenario).1
  ∧ @Flow.add_edge elements_order task_A task_C (Some "b_result") scenario
    = (with_endpoint task_C (with_endpoint task_A scenario),
       Raise DuplicateKeyError).
Proof.
  destruct (@duplicate_key_invariant elements_order scenario scenario_keys_unique)
    as (_ & _ & Hedge & _ & _ & Hdup).
  split; [apply Hedge|].
  apply (Hdup task_A task_C "b_result" (Edge.mk "B" "C" (Some "b_result"))).
  - apply (bool_decide_unpack _). by vm_compute.
  - done.
  - done.
  - left. apply (bool_decide_unpack _). by vm_compute.
  - left. apply (bool_decide_unpack _). by vm_compute.
Defined.

(** C7 as the specification states it fails: the edge [B→C] carries the key
    ["b_result"], and a second call into [C] with that key, from a new task
    whose slug is taken, raises the slug error of [add_task] instead. *)
Lemma duplicate_key_preempted_by_slug :
  Edge.mk "B" "C" (Some "b_result") ∈ Flow.edges scenario
  ∧ (@Flow.add_edge elements_order task_a task_C (Some "b_result") scenario).2
    = Raise DuplicateSlugError.
Proof.
  split.
  - apply (bool_decide_unpack _). by vm_compute.
  - by vm_compute.
Qed.

(** C5 as the specification states it fails: a future nested five deep is
    still a future after [wait], although it resolves to the integer 1. *)
Lemma wait_leaves_deep_future :
  DaskExecutor.wait (DaskExecutor.VList [nested5]) None started_executor
  = Return (DaskExecutor.VList [DaskExecutor.VFuture (DaskExecutor.VInt 1)])
  ∧ DaskExecutor.resolve nested5 = DaskExecutor.VInt 1.
Proof. split; reflexivity. Qed.

(** C9 as the specification states it fails: on an executor that was never
    started, [wait] on the empty list raises [AttributeError]. *)
Lemma wait_empty_unstarted_raises :
  DaskExecutor.wait (DaskExecutor.VList []) None fresh_executor
  = Raise (AttributeError NoSuchAttribute).
Proof. reflexivity. Qed.

(** Inside the scope of [start], the future that [submit] returns resolves,
    through [wait], to the value of the call. *)
Lemma submit_then_wait_started :
  ∃ future,
    DaskExecutor.submit add_all [DaskExecutor.VInt 1; DaskExecutor.VInt 2]
      started_executor = Return future
    ∧ DaskExecutor.wait (DaskExecutor.VList [future]) None started_executor
      = Return (DaskExecutor.VList [DaskExecutor.VInt 3]).
Proof. eexists. split; reflexivity. Qed.

Lemma scenario_slugs_unique : slugs_unique scenario.
Proof. by_evaluation. Qed.

Lemma sub_flow_is_downstream_closure_witness :
  ∃ l sub,
    @Flow.sorted_tasks elements_order (Some [inl "B"]) scenario
    = (scenario, Return l)
    ∧ NoDup l
    ∧ (∀ x, x ∈ l ↔ reach scenario (root_set scenario [inl "B"]) x)
    ∧ @Flow.sub_flow elements_order (Some [inl "B"]) scenario
      = (scenario, Return sub)
    ∧ (∀ x, x ∈ Flow.values sub ↔ reach scenario (root_set scenario [inl "B"]) x)
    ∧ (∀ e, e ∈ Flow.edges sub ↔
            e ∈ Flow.edges scenario
            ∧ (∃ u, reach scenario (root_set scenario [inl "B"]) u
                    ∧ Task.name u = Edge.upstream_task e)
            ∧ (∃ d, reach scenario (root_set scenario [inl "B"]) d
                    ∧ Task.name d = Edge.downstream_task e)).
Proof.
  apply (@sub_flow_is_downstream_closure elements_order scenario [inl "B"]).
  - apply scenario_names_ok.
  - apply scenario_endpoints_ok.
  - apply scenario_slugs_unique.
  - apply scenario_acyclic.
  - repeat constructor. apply (bool_decide_unpack _). by vm_compute.
Defined.

(** The sub-flow of the scenario below [B]: tasks [B] and [C], and the one
    edge between them. *)
Lemma scenario_sub_flow_below_B :
  ∃ sub,
    (@Flow.sub_flow elements_order (Some [inl "B"]) scenario).2 = Return sub
    ∧ Flow.tasks sub = {[ "B" := task_B; "C" := task_C ]}
    ∧ Flow.edges sub = {[ Edge.mk "B" "C" (Some "b_result") ]}.
Proof.
  eexists. split_and!.
  - by vm_compute.
  - apply (bool_decide_unpack _). by vm_compute.
  - apply (bool_decide_unpack _). by vm_compute.
Qed.

Lemma plain_codec_faithful : @faithful plain_codec.
Proof. split; [by intros [] i|done]. Qed.

Lemma parameter_flow_names_ok : names_ok parameter_flow.
Proof. by_evaluation. Qed.

Lemma parameter_flow_slugs_unique : slugs_unique parameter_flow.
Proof. by_evaluation. Qed.

Lemma parameter_flow_endpoints_ok : endpoints_ok parameter_flow.
Proof. by_evaluation. Qed.

Lemma parameter_flow_keys_unique : keys_unique parameter_flow.
Proof. by_evaluation. Qed.

Lemma parameter_flow_acyclic : acyclic parameter_flow.
Proof.
  apply (acyclic_by_rank parameter_flow parameter_rank). by_evaluation.
Qed.

Lemma parameter_flow_parameters :
  (Flow.parameters false parameter_flow).2
  = Return {[ "x" := (true, None); "y" := (false, Some 3%Z) ]}
  ∧ (Flow.parameters true parameter_flow).2 = Return {[ "x" := (true, None) ]}.
Proof.
  split; simpl; f_equal; apply (bool_decide_unpack _); by vm_compute.
Qed.

(** The round trip of the flow with a required and an optional parameter,
    whose edges carry keys. *)
Lemma safe_deserialize_round_trip_witness :
  ((Flow.parameters false parameter_flow).2
   = Return {[ "x" := (true, None); "y" := (false, Some 3%Z) ]}
   ∧ Flow.edges parameter_flow
     = {[ Edge.mk "x" "A" (Some "x"); Edge.mk "y" "A" (Some "y") ]})
  ∧ ∃ s g,
    @Flow.serialize elements_order plain_codec parameter_flow
    = (parameter_flow, Return s)
    ∧ @Flow.safe_deserialize elements_order plain_codec s = Return g
    ∧ dom (Flow.tasks g) = dom (Flow.tasks parameter_flow)
    ∧ (∀ n x, Flow.tasks parameter_flow !! n = Some x →
         ∃ y, Flow.tasks g !! n = Some y
              ∧ Task.name y = Task.name x ∧ Task.slug y = Task.slug x)
    ∧ Flow.edges g = Flow.edges parameter_flow
    ∧ (Flow.parameters false g).2 = (Flow.parameters false parameter_flow).2
    ∧ (Flow.parameters false parameter_flow).2 = Return (Flow.s_parameters s)
    ∧ (∀ blob, @Flow.safe_deserialize elements_order plain_codec
                 (@Flow.set_serialized plain_codec blob s) = Return g)
    ∧ (∀ n y, Flow.tasks g !! n = Some y →
         ∃ r, r ∈ Flow.s_tasks s
              ∧ y = @Flow.Task_safe_deserialize plain_codec r).
Proof.
  split.
  { split; [apply parameter_flow_parameters|].
    apply (bool_decide_unpack _). by vm_compute. }
  apply (@safe_deserialize_round_trip elements_order plain_codec parameter_flow).
  - apply plain_codec_faithful.
  - apply (bool_decide_unpack _). by vm_compute.
  - apply parameter_flow_names_ok.
  - apply parameter_flow_slugs_unique.
  - apply parameter_flow_endpoints_ok.
  - apply parameter_flow_keys_unique.
  - apply parameter_flow_acyclic.
Defined.

(** C6 as the specification states it fails: the flow that a failed
    [add_edge] has left with the edges [A→B] and [B→A] cannot be
    serialized. *)
Lemma serialize_cyclic_flow_raises :
  Flow.edges cyclic_flow = {[ Edge.mk "A" "B" None; Edge.mk "B" "A" None ]}
  ∧ (@Flow.serialize elements_order plain_codec cyclic_flow).2
    = Raise CycleError.
Proof.
  split.
  - apply (bool_decide_unpack _). by vm_compute.
  - by vm_compute.
Qed.

(** ** Instances of the further properties *)

Lemma scenario_flow_inv : flow_inv scenario.
Proof.
  split_and!; [apply scenario_names_ok|apply scenario_slugs_unique
              |apply scenario_endpoints_ok|apply scenario_keys_unique].
Qed.

Lemma scenario_has_A : task_A ∈ Flow.values scenario.
Proof. apply (bool_decide_unpack _). by vm_compute. Qed.

Lemma scenario_has_B : task_B ∈ Flow.values scenario.
Proof. apply (bool_decide_unpack _). by vm_compute. Qed.

Lemma scenario_has_C : task_C ∈ Flow.values scenario.
Proof. apply (bool_decide_unpack _). by vm_compute. Qed.

Lemma scenario_has_A_to_B : Edge.mk "A" "B" None ∈ Flow.edges scenario.
Proof. apply (bool_decide_unpack _). by vm_compute. Qed.

Lemma construction_keeps_invariants_witness :
  flow_inv (@Flow.add_edge elements_order task_C task_A None scenario).1
  ∧ flow_inv (Flow.add_task task_a scenario).1.
Proof.
  destruct (@construction_keeps_invariants elements_order scenario scenario_flow_inv)
    as (_ & Htask & Hedge & _).
  split; [apply Hedge|apply Htask].
Defined.

(** The call [add_edge(C, D, key='c_result')] on the scenario adds the task
    [D] and the edge, and returns. *)
Lemma scenario_add_C_to_D :
  @Flow.add_edge elements_order task_C task_D (Some "c_result") scenario
  = (committed task_C task_D (Some "c_result") scenario, Return ()).
Proof.
  rewrite add_edge_run.
  - assert (names_ok (committed task_C task_D (Some "c_result") scenario)) as Hn
      by (apply committed_names, scenario_names_ok).
    assert (endpoints_ok (committed task_C task_D (Some "c_result") scenario)) as He
      by (apply committed_endpoints;
          [apply scenario_names_ok|apply scenario_endpoints_ok]).
    destruct (@sorted_tasks_all elements_order _ He Hn)
      as [(l & -> & _)|[_ Hcyc]]; [done|].
    exfalso. apply Hcyc, (acyclic_by_rank _ extended_rank).
    apply (bool_decide_unpack _). by vm_compute.
  - left. apply (bool_decide_unpack _). by vm_compute.
  - right. apply (bool_decide_unpack _). by vm_compute.
  - unfold key_free. apply (bool_decide_unpack _). by vm_compute.
Qed.

Lemma extended_scenario_committed :
  extended_scenario = committed task_C task_D (Some "c_result") scenario.
Proof.
  unfold extended_scenario, after. cbn [foldl]. by rewrite scenario_add_C_to_D.
Qed.

Lemma add_edge_return_is_acyclic_witness :
  (Flow.tasks scenario !! "D" = None
   ∧ (Edge.mk "C" "D" (Some "c_result") ∉ Flow.edges scenario)
   ∧ @Flow.add_edge elements_order task_C task_D (Some "c_result") scenario
     = (extended_scenario, Return ()))
  ∧ extended_scenario = committed task_C task_D (Some "c_result") scenario
  ∧ acyclic extended_scenario
  ∧ Edge.mk "C" "D" (Some "c_result") ∈ Flow.edges extended_scenario
  ∧ Flow.tasks extended_scenario !! "D" = Some task_D
  ∧ is_Some (Flow.tasks extended_scenario !! "C").
Proof.
  assert (@Flow.add_edge elements_order task_C task_D (Some "c_result") scenario
          = (extended_scenario, Return ())) as Hrun.
  { rewrite extended_scenario_committed. apply scenario_add_C_to_D. }
  split.
  - split_and!.
    + apply (bool_decide_unpack _). by vm_compute.
    + apply (bool_decide_unpack _). by vm_compute.
    + exact Hrun.
  - apply (@add_edge_return_is_acyclic elements_order scenario extended_scenario
             task_C task_D (Some "c_result")).
    + apply scenario_names_ok.
    + apply scenario_endpoints_ok.
    + exact Hrun.
Defined.

Lemma add_edge_again_is_noop_witness :
  @Flow.add_edge elements_order task_A task_B None scenario
  = (scenario, Return ()).
Proof.
  apply (@add_edge_again_is_noop elements_order scenario task_A task_B).
  - apply scenario_names_ok.
  - apply scenario_endpoints_ok.
  - apply scenario_acyclic.
  - apply scenario_has_A.
  - apply scenario_has_B.
  - apply scenario_has_A_to_B.
Defined.



Lemma upstream_downstream_converse_witness :
  ∃ U D,
    @Flow.upstream_tasks elements_order (inr task_C) scenario = (scenario, Return U)
    ∧ @Flow.downstream_tasks elements_order (inr task_A) scenario
      = (scenario, Return D)
    ∧ (task_A ∈ U ↔ task_C ∈ D)
    ∧ (task_A ∈ U ↔ ∃ key, Edge.mk "A" "C" key ∈ Flow.edges scenario).
Proof.
  apply (@upstream_downstream_converse elements_order scenario task_C task_A).
  - apply scenario_names_ok.
  - apply scenario_endpoints_ok.
  - apply scenario_has_C.
  - apply scenario_has_A.
Defined.

Lemma parameters_required_is_restriction_witness :
  ∃ every required,
    Flow.parameters false parameter_flow = (parameter_flow, Return every)
    ∧ Flow.parameters true parameter_flow = (parameter_flow, Return required)
    ∧ (∀ n, required !! n =
            every !! n ≫= λ v : bool * option Z, if v.1 then Some v else None)
    ∧ (∀ n v, every !! n = Some v ↔
              ∃ x, Flow.tasks parameter_flow !! n = Some x
                   ∧ Task.is_parameter x = true
                   ∧ v = (Task.required x, Task.default x)).
Proof.
  apply (@parameters_required_is_restriction elements_order parameter_flow).
  apply parameter_flow_names_ok.
Defined.

(** The two parameters of the example, and the one that is required. *)
Lemma scenario_root_B_ok : roots_ok scenario [inl "B"].
Proof. repeat constructor. apply (bool_decide_unpack _). by vm_compute. Qed.

Lemma sorted_tasks_below_roots_in_order_witness :
  ∃ l, @Flow.sorted_tasks elements_order (Some [inl "B"]) scenario
       = (scenario, Return l)
       ∧ ∀ e u, e ∈ Flow.edges scenario → u ∈ l →
           Task.name u = Edge.upstream_task e →
           before l (Edge.upstream_task e) (Edge.downstream_task e).
Proof.
  apply (@sorted_tasks_below_roots_in_order elements_order scenario [inl "B"]).
  - apply scenario_names_ok.
  - apply scenario_endpoints_ok.
  - apply scenario_acyclic.
  - apply scenario_root_B_ok.
Defined.

Lemma unknown_root_raises_witness :
  @Flow.sorted_tasks elements_order (Some [inl "B"; inl "Z"]) scenario
  = (scenario, Raise NotFoundError)
  ∧ @Flow.sub_flow elements_order (Some [inl "B"; inl "Z"]) scenario
    = (scenario, Raise NotFoundError).
Proof.
  apply (@unknown_root_raises elements_order scenario [inl "B"; inl "Z"] "Z").
  - apply (bool_decide_unpack _). by vm_compute.
  - apply (bool_decide_unpack _). by vm_compute.
Defined.

Lemma sub_flow_without_roots_is_copy_witness :
  @Flow.sub_flow elements_order None scenario = (scenario, Return scenario).
Proof.
  apply (@sub_flow_without_roots_is_copy elements_order scenario).
  - apply scenario_names_ok.
  - apply scenario_slugs_unique.
  - apply scenario_endpoints_ok.
  - apply scenario_acyclic.
Defined.

Lemma sub_flow_is_well_formed_witness :
  ∃ sub, @Flow.sub_flow elements_order (Some [inl "B"]) scenario
         = (scenario, Return sub)
         ∧ flow_inv sub ∧ acyclic sub
         ∧ Flow.tasks sub ⊆ Flow.tasks scenario
         ∧ Flow.edges sub ⊆ Flow.edges scenario.
Proof.
  apply (@sub_flow_is_well_formed elements_order scenario [inl "B"]).
  - apply scenario_flow_inv.
  - apply scenario_acyclic.
  - apply scenario_root_B_ok.
Defined.

Lemma serialize_returns_iff_acyclic_witness :
  ∃ s, @Flow.serialize elements_order plain_codec scenario = (scenario, Return s)
       ∧ Flow.s_name s = Flow.name scenario
       ∧ Flow.s_project s = Flow.project scenario
       ∧ Flow.s_version s = Flow.version scenario
       ∧ Flow.s_description s = Flow.description scenario
       ∧ Flow.s_executor_args s = Flow.cluster scenario
       ∧ length (Flow.s_tasks s) = size (Flow.tasks scenario)
       ∧ length (Flow.s_edges s) = size (Flow.edges scenario)
       ∧ (Flow.parameters false scenario).2 = Return (Flow.s_parameters s)
       ∧ (∃ l, @Flow.sorted_tasks elements_order None scenario
               = (scenario, Return l)
               ∧ l ≡ₚ Flow.values scenario
               ∧ ∀ i, Flow.s_tasks s !! i
                      = (λ x, @Flow.with_sort_order plain_codec
                                (@Flow.Task_serialize plain_codec x) (i + 1))
                          <$> l !! i)
       ∧ Flow.s_edges s
         ≡ₚ @Flow.Edge_serialize plain_codec <$> elements (Flow.edges scenario)
       ∧ (@Flow.slug plain_codec scenario).2 = Return (Flow.s_slug s)
       ∧ Flow.s_schedule s
         = @Flow.schedule_serialize plain_codec (Flow.schedule scenario)
       ∧ Flow.s_concurrent_runs s = Flow.concurrent_runs scenario
       ∧ Flow.s_serialized s
         = @Flow.utilities_serialize plain_codec
             (Flow.set_edges ∅ (Flow.set_tasks ∅ scenario)).
Proof.
  destruct (@serialize_returns_iff_acyclic elements_order plain_codec scenario)
    as [Hret _].
  - apply scenario_names_ok.
  - apply scenario_endpoints_ok.
  - apply Hret, scenario_acyclic.
Defined.

Lemma deserialize_takes_edges_unchecked_witness :
  ∃ g, @Flow.deserialize plain_codec plain_unpickler bad_record = Return g
       ∧ Flow.edges g = list_to_set [Edge.mk "A" "Z" None; Edge.mk "Z" "A" None]
       ∧ Flow.schedule g = ""
       ∧ names_ok g
       ∧ ∀ x, x ∈ Flow.values g → x ∈ [Task.mk 0 "A" "a" Task.Plain].
Proof.
  apply (@deserialize_takes_edges_unchecked plain_codec plain_unpickler bad_record).
  apply (bool_decide_unpack _). by vm_compute.
Defined.

Lemma wait_is_idempotent_witness :
  DaskExecutor.wait (DaskExecutor.VList [DaskExecutor.VFuture (DaskExecutor.VInt 1);
                                         DaskExecutor.VInt 2])
    None started_executor
  = Return (DaskExecutor.VList [DaskExecutor.VInt 1; DaskExecutor.VInt 2])
  ∧ DaskExecutor.wait (DaskExecutor.VList [DaskExecutor.VInt 1; DaskExecutor.VInt 2])
      None started_executor
    = Return (DaskExecutor.VList [DaskExecutor.VInt 1; DaskExecutor.VInt 2]).
Proof.
  destruct (wait_is_idempotent None false false true (DaskExecutor.mk_client None)
              [DaskExecutor.VFuture (DaskExecutor.VInt 1); DaskExecutor.VInt 2]
              None None) as (H1 & H2 & _).
  - repeat constructor; simpl; lia.
  - split; [exact H1|exact H2].
Defined.

Lemma submit_and_map_then_wait_witness :
  (∃ future,
     DaskExecutor.submit add_all [DaskExecutor.VInt 10] started_executor
     = Return future
     ∧ DaskExecutor.wait (DaskExecutor.VList [future]) None started_executor
       = Return (DaskExecutor.VList [DaskExecutor.VInt 10]))
  ∧ (∃ future,
       DaskExecutor.map
         (λ v, match v with DaskExecutor.VList l => l | _ => [] end)
         add_all [DaskExecutor.VInt 10]
         (DaskExecutor.VList [DaskExecutor.VInt 1; DaskExecutor.VInt 2;
                              DaskExecutor.VInt 3])
         started_executor = Return future
       ∧ DaskExecutor.wait (DaskExecutor.VList [future]) None started_executor
         = Return (DaskExecutor.VList
                     [DaskExecutor.VList [DaskExecutor.VInt 11;
                                          DaskExecutor.VInt 12;
                                          DaskExecutor.VInt 13]])).
Proof.
  apply (submit_and_map_then_wait None false false (DaskExecutor.mk_client None)
           (λ v, match v with DaskExecutor.VList l => l | _ => [] end)
           add_all [DaskExecutor.VInt 10]
           (DaskExecutor.VList [DaskExecutor.VInt 1; DaskExecutor.VInt 2;
                                DaskExecutor.VInt 3]) None).
  - simpl. lia.
  - apply Forall_forall. intros elem _. simpl. lia.
Defined.
